(** * Colour extraction pipeline of [src/lib/colorUtils.ts]

    A shallow embedding of [rgbToHex], [kMeans] and the pixel loop and
    branch at the end of [extractColors], with the properties of the
    palette they produce; then of the resize at the start of
    [extractColors], of [getTextColor] of [ColorBlock.tsx] and of the
    checks of [ImageUploader.tsx] on an upload.

    Conventions of the embedding.
    - A JavaScript [number] is an exact rational ([Q]).  Pixel channels
      are integers, sums of channels are integers, and a centroid is a
      quotient of such a sum by a cluster size.
    - [Math.sqrt] is monotone, so the nearest-centroid scan compares
      squared distances; [Infinity] is [None].
    - [pixels.sort(() => 0.5 - Math.random())] is the runtime's sort
      under a comparator that ignores its arguments.  One run of it is a
      function [randomSort] on lists, of which the theorems assume at
      most that it returns a permutation of its argument.
    - A [TypeError] (a method call on [undefined]) is [None]. *)

From Stdlib Require Import ZArith QArith Qround Qabs String Ascii List Lia.
From Stdlib Require Import HexadecimalString Lqa.
From stdpp Require Import base list strings gmap pretty.
From Equations Require Import Equations.

Open Scope Z_scope.

(** ** Numbers *)

(** [a < b] on numbers. *)
Definition Qltb (x y : Q) : bool := negb (Qle_bool y x).

(** [Math.round]: the nearest integer, a tie going to the larger one. *)
Definition Math_round (x : Q) : Z := Qfloor (x + (1 # 2)).

(** [Math.abs]. *)
Definition Math_abs (x : Q) : Q := Qabs x.

(** [n.toString(16)] of an integer [n]: lower-case digits, no padding, a
    leading minus sign for a negative number. *)
Definition toString16 (n : Z) : string :=
  HexadecimalString.NilZero.string_of_int (Z.to_hex_int n).

(** [String.prototype.toUpperCase] on the ASCII range. *)
Definition upperChar (c : ascii) : ascii :=
  let n := N_of_ascii c in
  if ((97 <=? n) && (n <=? 122))%N then ascii_of_N (n - 32) else c.

Fixpoint toUpperCase (s : string) : string :=
  match s with
  | EmptyString => EmptyString
  | String c s' => String (upperChar c) (toUpperCase s')
  end.

(** ** Colours *)

Record RGBColor : Type := mkRGB { r : Q; g : Q; b : Q }.

Definition HexColor : Type := string.

(** The inner [toHex] of [rgbToHex]. *)
Definition toHex (value : Q) : string :=
  let hex := toString16 (Math_round value) in
  if (String.length hex =? 1)%nat then ("0" +:+ hex) else hex.

Definition rgbToHex (rgb : RGBColor) : HexColor :=
  let hex := "#" +:+ toHex (r rgb) +:+ toHex (g rgb) +:+ toHex (b rgb) in
  toUpperCase hex.

(** What [toHex] does to an integer that is already rounded. *)
Definition padHex (n : Z) : string :=
  let hex := toString16 n in
  if (String.length hex =? 1)%nat then ("0" +:+ hex) else hex.

(** A channel value within the range of a byte. *)
Definition inByteRange (x : Q) : Prop := (0 <= x /\ x <= 255)%Q.

Definition colorInRange (c : RGBColor) : Prop :=
  inByteRange (r c) /\ inByteRange (g c) /\ inByteRange (b c).

(** *** The format the hex strings are specified to have *)

Definition upperHexDigits : list ascii :=
  ["0"; "1"; "2"; "3"; "4"; "5"; "6"; "7";
   "8"; "9"; "A"; "B"; "C"; "D"; "E"; "F"]%char.

Definition upperHexDigit (d : Z) : ascii :=
  nth (Z.to_nat d) upperHexDigits "?"%char.

(** Exactly two upper-case hex digits, zero-padded. *)
Definition twoHexDigits (n : Z) : string :=
  String (upperHexDigit (n / 16)) (String (upperHexDigit (n mod 16)) EmptyString).

(** [#RRGGBB] for three integers. *)
Definition hexOfBytes (rr gg bb : Z) : HexColor :=
  String "#" (twoHexDigits rr +:+ twoHexDigits gg +:+ twoHexDigits bb).

(** Value of one hex digit, either case. *)
Definition hexDigitValue (c : ascii) : option Z :=
  let n := Z.of_N (N_of_ascii c) in
  if (48 <=? n) && (n <=? 57) then Some (n - 48)
  else if (65 <=? n) && (n <=? 70) then Some (n - 55)
  else if (97 <=? n) && (n <=? 102) then Some (n - 87)
  else None.

Definition hexFieldValue (hi lo : ascii) : option Z :=
  match hexDigitValue hi, hexDigitValue lo with
  | Some h, Some l => Some (16 * h + l)
  | _, _ => None
  end.

(** The parse of the round-trip property, in the words of the
    specification (the code has no parser): after the [#], the three
    two-digit hex fields taken as integers. *)
Definition parseHex (s : HexColor) : option (Z * Z * Z) :=
  match s with
  | String "#" (String r1 (String r2 (String g1 (String g2
      (String b1 (String b2 EmptyString)))))) =>
      match hexFieldValue r1 r2, hexFieldValue g1 g2, hexFieldValue b1 b2 with
      | Some rr, Some gg, Some bb => Some (rr, gg, bb)
      | _, _, _ => None
      end
  | _ => None
  end.

(** ** The pixel sampler (the loop over [imageData.data]) *)

(** The set key [`${r},${g},${b}`]. *)
Definition pixelKey (rr gg bb : Z) : string :=
  pretty rr +:+ "," +:+ pretty gg +:+ "," +:+ pretty bb.

Definition byteColor (rr gg bb : Z) : RGBColor :=
  {| r := inject_Z rr; g := inject_Z gg; b := inject_Z bb |}.

(** The loop [for (let i = 0; i < data.length; i += 4)], on what is left
    of [data] from index [i] on.  The data of an [ImageData] holds four
    bytes for each pixel, so nothing is left over at the end. *)
Fixpoint samplePixelsFrom (data : list Z) (pixelSet : gset string)
    (pixels : list RGBColor) : list RGBColor :=
  match data with
  | rr :: gg :: bb :: a :: rest =>
      if a <? 255 then samplePixelsFrom rest pixelSet pixels
      else
        let key := pixelKey rr gg bb in
        if decide (key ∈ pixelSet) then samplePixelsFrom rest pixelSet pixels
        else samplePixelsFrom rest ({[key]} ∪ pixelSet)
               (pixels ++ [byteColor rr gg bb])
  | _ => pixels
  end.

Definition samplePixels (data : list Z) : list RGBColor :=
  samplePixelsFrom data ∅ [].

(** A buffer as the canvas hands it over: bytes, four for each pixel. *)
Definition isByte (z : Z) : Prop := 0 <= z <= 255.

Definition rgbaBuffer (data : list Z) : Prop :=
  Forall isByte data /\ (length data mod 4 = 0)%nat.

(** *** The sample set as it is specified *)

(** The pixels of a buffer in row-major order, as [(r, g, b, a)]. *)
Fixpoint bufferPixels (data : list Z) : list (Z * Z * Z * Z) :=
  match data with
  | rr :: gg :: bb :: a :: rest => (rr, gg, bb, a) :: bufferPixels rest
  | _ => []
  end.

Definition isOpaque (p : Z * Z * Z * Z) : bool := snd p =? 255.

Definition pixelTriple (p : Z * Z * Z * Z) : Z * Z * Z := fst p.

(** Only the first occurrence of each element is kept. *)
Fixpoint firstOccurrences (l : list (Z * Z * Z)) : list (Z * Z * Z) :=
  match l with
  | [] => []
  | x :: l' => x :: filter (λ y, y ≠ x) (firstOccurrences l')
  end.

Definition tripleColor (t : Z * Z * Z) : RGBColor :=
  byteColor (fst (fst t)) (snd (fst t)) (snd t).

(** The triples of the fully opaque pixels, in buffer order. *)
Definition opaqueTriples (data : list Z) : list (Z * Z * Z) :=
  map pixelTriple (filter (λ p, isOpaque p = true) (bufferPixels data)).

(** The distinct triples of the fully opaque pixels, first occurrences. *)
Definition distinctOpaque (data : list Z) : list (Z * Z * Z) :=
  firstOccurrences (opaqueTriples data).

(** The sampler's loop on triples: [seen] is what it has kept so far. *)
Fixpoint dedupFrom (seen l : list (Z * Z * Z)) : list (Z * Z * Z) :=
  match l with
  | [] => seen
  | t :: l' =>
      if decide (t ∈ seen) then dedupFrom seen l' else dedupFrom (seen ++ [t]) l'
  end.

Definition tripleKey (t : Z * Z * Z) : string :=
  pixelKey (fst (fst t)) (snd (fst t)) (snd t).

(** No comma among the characters of a string. *)
Fixpoint noComma (s : string) : Prop :=
  match s with
  | EmptyString => True
  | String c s' => c ≠ ","%char ∧ noComma s'
  end.

(** ** k-means *)

(** The argument of [Math.sqrt] in the distance of a pixel to a centroid. *)
Definition squaredDistance (pixel centroid : RGBColor) : Q :=
  ((r pixel - r centroid) ^ 2 + (g pixel - g centroid) ^ 2
   + (b pixel - b centroid) ^ 2)%Q.

(** [distance < minDistance]; [minDistance] starts as [Infinity]. *)
Definition belowMin (distance : Q) (minDistance : option Q) : bool :=
  match minDistance with
  | None => true
  | Some m => Qltb distance m
  end.

(** The scan [for (let i = 0; i < centroids.length; i++)] from index [i]
    on, with the current [minDistance] and [clusterIndex]. *)
Fixpoint nearestFrom (pixel : RGBColor) (centroids : list RGBColor) (i : nat)
    (minDistance : option Q) (clusterIndex : nat) : nat :=
  match centroids with
  | [] => clusterIndex
  | c :: rest =>
      let distance := squaredDistance pixel c in
      if belowMin distance minDistance
      then nearestFrom pixel rest (S i) (Some distance) i
      else nearestFrom pixel rest (S i) minDistance clusterIndex
  end.

Definition nearestCentroid (pixel : RGBColor) (centroids : list RGBColor) : nat :=
  nearestFrom pixel centroids 0 None 0.

(** [clusters[clusterIndex].push(pixel)]; there is no such cluster when
    the index is past the end, and the call throws. *)
Definition pushTo (clusters : list (list RGBColor)) (clusterIndex : nat)
    (pixel : RGBColor) : option (list (list RGBColor)) :=
  match clusters !! clusterIndex with
  | Some cluster => Some (<[clusterIndex := cluster ++ [pixel]]> clusters)
  | None => None
  end.

(** The loop [for (const pixel of pixels)]. *)
Fixpoint assignPixels (pixels centroids : list RGBColor)
    (clusters : list (list RGBColor)) : option (list (list RGBColor)) :=
  match pixels with
  | [] => Some clusters
  | pixel :: rest =>
      clusters' ← pushTo clusters (nearestCentroid pixel centroids) pixel;
      assignPixels rest centroids clusters'
  end.

(** The reducer of a cluster: [acc.r += pixel.r] and so on. *)
Definition addColor (acc pixel : RGBColor) : RGBColor :=
  {| r := r acc + r pixel; g := g acc + g pixel; b := b acc + b pixel |}%Q.

(** The [reduce] that adds up a cluster. *)
Definition sumColors (cluster : list RGBColor) : RGBColor :=
  fold_left addColor cluster {| r := 0; g := 0; b := 0 |}%Q.

Definition meanColor (cluster : list RGBColor) : RGBColor :=
  let sum := sumColors cluster in
  let n := inject_Z (Z.of_nat (length cluster)) in
  {| r := r sum / n; g := g sum / n; b := b sum / n |}%Q.

(** [centroids[i] = c]: in place within the array, an append right at its
    end; further out the array would get holes, which [None] stands for
    as well. *)
Definition setCentroid (centroids : list RGBColor) (i : nat) (c : RGBColor)
    : option (list RGBColor) :=
  if (i <? length centroids)%nat then Some (<[i := c]> centroids)
  else if (i =? length centroids)%nat then Some (centroids ++ [c])
  else None.

(** The loop [for (let i = 0; i < k; i++)] from index [i] on, [todo]
    being [k - i]. *)
Fixpoint updateFrom (clusters : list (list RGBColor)) (i todo : nat)
    (centroids : list RGBColor) : option (list RGBColor) :=
  match todo with
  | O => Some centroids
  | S todo' =>
      match clusters !! i with
      | None => None
      | Some [] => updateFrom clusters (S i) todo' centroids
      | Some cluster =>
          centroids' ← setCentroid centroids i (meanColor cluster);
          updateFrom clusters (S i) todo' centroids'
      end
  end.

(** The variables of [kMeans] that the loop changes. *)
Record KState : Type := mkKState {
  centroids : list RGBColor;
  clusters : list (list RGBColor);
  previousCentroids : list RGBColor;
  iterations : nat
}.

Definition closeTo (centroid prev : RGBColor) : bool :=
  Qltb (Math_abs (r centroid - r prev)) 1
  && Qltb (Math_abs (g centroid - g prev)) 1
  && Qltb (Math_abs (b centroid - b prev)) 1.

(** [hasConverged()].  Past the length test [previousCentroids[index]]
    is always there. *)
Definition hasConverged (st : KState) : bool :=
  if negb (length (previousCentroids st) =? length (centroids st))%nat then false
  else
    forallb id
      (imap (λ index centroid,
               match previousCentroids st !! index with
               | Some prev => closeTo centroid prev
               | None => false
               end)
            (centroids st)).

(** The test of the [while]. *)
Definition loopTest (maxIterations : nat) (st : KState) : bool :=
  (iterations st <? maxIterations)%nat && negb (hasConverged st).

(** One run of the body of the [while]. *)
Definition kMeansBody (pixels : list RGBColor) (k : nat) (st : KState)
    : option KState :=
  clusters' ← assignPixels pixels (centroids st) (replicate k []);
  centroids' ← updateFrom clusters' 0 k (centroids st);
  Some {| centroids := centroids';
          clusters := clusters';
          previousCentroids := centroids st;
          iterations := S (iterations st) |}.

(** A value together with the equation that says what it is. *)
Definition inspect {A : Type} (x : A) : {y : A | x = y} := exist _ x eq_refl.

(** The [while] loop. *)
Equations? kMeansLoop (pixels : list RGBColor) (k maxIterations : nat)
    (st : KState) : option KState by wf (maxIterations - iterations st)%nat lt :=
  kMeansLoop pixels k maxIterations st with inspect (loopTest maxIterations st) := {
    | exist _ false _ => Some st
    | exist _ true Htest with inspect (kMeansBody pixels k st) := {
        | exist _ None _ => None
        | exist _ (Some st') Hbody => kMeansLoop pixels k maxIterations st' } }.
Proof.
  unfold kMeansBody in Hbody.
  destruct (assignPixels _ _ _) as [cl|]; simpl in Hbody; [|discriminate].
  destruct (updateFrom _ _ _ _) as [cs|]; simpl in Hbody; [|discriminate].
  injection Hbody as <-. simpl.
  unfold loopTest in Htest. apply andb_true_iff in Htest as [Hlt _].
  apply Nat.ltb_lt in Hlt. lia.
Qed.

Definition kMeansInit (pixels : list RGBColor) (k : nat) : KState :=
  {| centroids := take k pixels;
     clusters := [];
     previousCentroids := [];
     iterations := 0 |}.

(** [kMeans] up to the end of its loop.  The sort is in place, so the
    loop goes over the pixels in their new order. *)
Definition kMeansRun (randomSort : list RGBColor → list RGBColor)
    (pixels : list RGBColor) (k maxIterations : nat) : option KState :=
  let pixels := randomSort pixels in
  kMeansLoop pixels k maxIterations (kMeansInit pixels k).

Definition kMeans (randomSort : list RGBColor → list RGBColor)
    (pixels : list RGBColor) (k maxIterations : nat) : option (list RGBColor) :=
  centroids <$> kMeansRun randomSort pixels k maxIterations.

(** ** The orchestrator: [extractColors] from [imageData.data] on *)

Definition extractColors (randomSort : list RGBColor → list RGBColor)
    (data : list Z) (colorCount : nat) : option (list HexColor) :=
  let pixels := samplePixels data in
  if (length pixels <=? colorCount)%nat then Some (map rgbToHex pixels)
  else
    dominantColors ← kMeans randomSort pixels colorCount 100;
    Some (map rgbToHex dominantColors).

(** The state after [n] runs of the body, whatever the loop test says. *)
Fixpoint kMeansIter (pixels : list RGBColor) (k n : nat) (st : KState)
    : option KState :=
  match n with
  | O => Some st
  | S n' => st' ← kMeansIter pixels k n' st; kMeansBody pixels k st'
  end.

(** Every channel of every centroid moved by less than one. *)
Definition movedLessThanOne (prev current : RGBColor) : Prop :=
  (Qabs (r current - r prev) < 1 /\ Qabs (g current - g prev) < 1
   /\ Qabs (b current - b prev) < 1)%Q.

(** Only clusters with an index below [n] hold samples. *)
Definition emptyFrom (n : nat) (clusters : list (list RGBColor)) : Prop :=
  ∀ j cluster, clusters !! j = Some cluster → cluster ≠ [] → (j < n)%nat.

(** What holds of the state at every test of the loop. *)
Definition runInv (k : nat) (st : KState) : Prop :=
  (length (centroids st) ≤ k)%nat
  ∧ (centroids st = [] → previousCentroids st = []).

(** ** The sort with a random comparator, as a random experiment *)

Definition pow2 (e : nat) : Q := inject_Z (2 ^ Z.of_nat e).

(** [0.5 - Math.random()], where [Math.random()] is [j / 2^bits] for a
    [j] drawn evenly from [0 .. 2^bits - 1]. *)
Definition comparator (bits : nat) (j : Z) : Q :=
  ((1 # 2) - inject_Z j / pow2 bits)%Q.

(** What the runtime's sort does on an array of some length when the
    comparator takes no notice of its arguments: it either is done,
    with the elements in some order (given by their old indices), or
    calls the comparator and goes on according to the sign of the
    result. *)
Inductive sortRun : Type :=
| Sorted (order : list nat)
| Compare (negative zero positive : sortRun).

(** Of the [2^bits] values of [j], [2^(bits-1) - 1] make the comparator
    negative, one makes it zero and [2^(bits-1)] make it positive. *)
Definition chanceNegative (bits : nat) : Q :=
  (inject_Z (2 ^ (Z.of_nat bits - 1) - 1) / pow2 bits)%Q.

Definition chanceZero (bits : nat) : Q := (1 / pow2 bits)%Q.

Definition chancePositive (bits : nat) : Q :=
  (inject_Z (2 ^ (Z.of_nat bits - 1)) / pow2 bits)%Q.

(** The chance that a sort ends with the elements in a given order, the
    draws being independent. *)
Fixpoint chance (bits : nat) (run : sortRun) (order : list nat) : Q :=
  match run with
  | Sorted o => if decide (o = order) then 1%Q else 0%Q
  | Compare n z p =>
      (chanceNegative bits * chance bits n order
       + chanceZero bits * chance bits z order
       + chancePositive bits * chance bits p order)%Q
  end.

(** A rational with a power of two for a denominator. *)
Definition dyadic (q : Q) : Prop :=
  ∃ (m : Z) (e : nat), (q * pow2 e == inject_Z m)%Q.

(** ** The resize at the start of [extractColors] *)


(** ** The text colour of a swatch: [getTextColor] of [ColorBlock.tsx] *)

(** [hexColor.replace("#", "")]: the first [#] goes. *)
Fixpoint replaceHash (s : string) : string :=
  match s with
  | EmptyString => EmptyString
  | String c s' => if Ascii.eqb c "#" then s' else String c (replaceHash s')
  end.

(** White space and line ends among the code units below 256. *)
Definition isWhiteSpace (c : ascii) : bool :=
  let n := N_of_ascii c in
  ((9 <=? n) && (n <=? 13) || (n =? 32) || (n =? 160))%N.

Fixpoint trimStart (s : string) : string :=
  match s with
  | EmptyString => EmptyString
  | String c s' => if isWhiteSpace c then trimStart s' else s
  end.

(** The digits at the start of a string, as far as they go; [acc] is
    the value of those read so far, if any. *)
Fixpoint parseHexDigits (s : string) (acc : option Z) : option Z :=
  match s with
  | EmptyString => acc
  | String c s' =>
      match hexDigitValue c with
      | Some d => parseHexDigits s' (Some (16 * default 0 acc + d))
      | None => acc
      end
  end.

(** [parseInt(s, 16)]: white space, a sign and a [0x] are skipped, then
    the digits are read as far as they go; [None] is [NaN]. *)
Definition parseInt16 (s : string) : option Z :=
  let s := trimStart s in
  let '(sign, s) :=
    match s with
    | String "-" s' => (-1, s')
    | String "+" s' => (1, s')
    | _ => (1, s)
    end in
  let s :=
    match s with
    | String "0" (String "x" s') => s'
    | String "0" (String "X" s') => s'
    | _ => s
    end in
  n ← parseHexDigits s None; Some (sign * n).

(** [(0.299 * r + 0.587 * g + 0.114 * b) / 255]. *)
Definition luminance (rr gg bb : Z) : Q :=
  (((299 # 1000) * inject_Z rr + (587 # 1000) * inject_Z gg
    + (114 # 1000) * inject_Z bb) / 255)%Q.

(** A comparison with [NaN] is false, which gives the white text. *)
Definition getTextColor (hexColor : string) : string :=
  let hex := replaceHash hexColor in
  let rr := parseInt16 (substring 0 2 hex) in
  let gg := parseInt16 (substring 2 2 hex) in
  let bb := parseInt16 (substring 4 2 hex) in
  match rr, gg, bb with
  | Some rr, Some gg, Some bb =>
      if Qltb (1 # 2) (luminance rr gg bb) then "#000000" else "#FFFFFF"
  | _, _, _ => "#FFFFFF"
  end.

(** ** The checks on an upload: [ImageUploader.tsx] *)

Module ImageUploader.

Record File : Type := mkFile { type : string; size : Z }.

Definition ACCEPTED_FORMATS : list string :=
  ["image/jpeg"; "image/png"; "image/gif"; "image/webp"; "image/svg+xml"].

(** The two messages of [toast.error]. *)
Inductive Toast : Type := UnsupportedFormat | FileTooLarge.

(** What a handler ends in: nothing, a message, or the call of
    [onImageUpload]. *)
Inductive Outcome : Type :=
| Nothing
| Error (message : Toast)
| Upload (file : File).

(** [files] is [None] for [null]. *)
Definition handleFileSelect (files : option (list File)) : Outcome :=
  match files with
  | None | Some [] => Nothing
  | Some (file :: _) =>
      if negb (bool_decide (type file ∈ ACCEPTED_FORMATS))
      then Error UnsupportedFormat
      else if 5 * 1024 * 1024 <? size file then Error FileTooLarge
      else Upload file
  end.

(** The new [isDragging] and what becomes of the files dropped. *)
Definition handleDrop (isProcessing : bool) (files : list File)
    : bool * Outcome :=
  (false, if isProcessing then Nothing else handleFileSelect (Some files)).

Definition handleInputChange (isProcessing : bool)
    (files : option (list File)) : Outcome :=
  match files with
  | None => Nothing
  | Some _ => if isProcessing then Nothing else handleFileSelect files
  end.

End ImageUploader.

(** ** Notions for the further properties *)

(** [#] and six upper-case hex digits. *)
Definition isUpperHexDigit (c : ascii) : bool :=
  let n := N_of_ascii c in
  ((48 <=? n) && (n <=? 57) || (65 <=? n) && (n <=? 70))%N.

Definition isHexColor (s : string) : bool :=
  match s with
  | String "#" (String c1 (String c2 (String c3 (String c4
      (String c5 (String c6 EmptyString)))))) =>
      forallb isUpperHexDigit [c1; c2; c3; c4; c5; c6]
  | _ => false
  end.

(** The three channels agree as numbers. *)
Definition sameColor (c1 c2 : RGBColor) : Prop :=
  (r c1 == r c2 /\ g c1 == g c2 /\ b c1 == b c2)%Q.

Definition sumQ (l : list Q) : Q := foldr Qplus 0%Q l.

(** ** Inputs for the examples *)

(** Seven pixels: five opaque colours, the first of them once more, and
    a transparent pixel. *)
Definition sampleBuffer : list Z :=
  [1; 2; 3; 255;  4; 5; 6; 255;  100; 100; 100; 255;  7; 8; 9; 255;
   200; 200; 200; 255;  1; 2; 3; 255;  9; 9; 9; 0].

Definition samplePalette : list RGBColor :=
  [mkRGB 1 2 3; mkRGB 4 5 6; mkRGB 100 100 100; mkRGB 7 8 9; mkRGB 200 200 200].

(** A state with twice the same centroid: the second one gets no
    sample. *)
Definition twinState : KState :=
  {| centroids := [mkRGB 4 5 6; mkRGB 4 5 6];
     clusters := [];
     previousCentroids := [];
     iterations := 0 |}.

(* ===================================================================== *)
(** * Properties *)

(** ** The hex formatter *)

Lemma Math_round_nearest x :
  (Qabs (inject_Z (Math_round x) - x) <= 1 # 2)%Q.
Proof.
  unfold Math_round.
  pose proof (Qfloor_le (x + (1 # 2))) as Hlo.
  pose proof (Qlt_floor (x + (1 # 2))) as Hhi.
  rewrite inject_Z_plus in Hhi.
  change (inject_Z 1) with 1%Q in Hhi.
  set (n := inject_Z (Qfloor (x + (1 # 2)))) in *.
  apply Qabs_Qle_condition. split; lra.
Qed.

Lemma Math_round_range x : inByteRange x → 0 <= Math_round x <= 255.
Proof.
  intros [Hlo Hhi]. unfold Math_round. split.
  - change 0 with (Qfloor (inject_Z 0)). apply Qfloor_resp_le.
    change (inject_Z 0) with 0%Q. lra.
  - change 255 with (Qfloor (511 # 2)). apply Qfloor_resp_le. lra.
Qed.

(** A decidable property that holds of the 256 bytes one by one holds of
    every byte. *)
Lemma byte_forall (P : Z → bool) :
  forallb P (map Z.of_nat (seq 0 256)) = true →
  ∀ n, 0 <= n <= 255 → P n = true.
Proof.
  intros Hall n Hn.
  rewrite forallb_forall in Hall. apply Hall.
  rewrite <- (Z2Nat.id n) by lia.
  apply in_map, in_seq. lia.
Qed.

Lemma toUpperCase_app s1 s2 :
  toUpperCase (s1 +:+ s2) = toUpperCase s1 +:+ toUpperCase s2.
Proof.
  induction s1 as [|c s1 IH]; simpl; [reflexivity|]. now rewrite IH.
Qed.

Lemma toUpperCase_padHex n :
  0 <= n <= 255 → toUpperCase (padHex n) = twoHexDigits n.
Proof.
  intros Hn. apply String.eqb_eq.
  revert n Hn. apply byte_forall. vm_compute. reflexivity.
Qed.

Lemma toUpperCase_toHex x :
  inByteRange x → toUpperCase (toHex x) = twoHexDigits (Math_round x).
Proof.
  intros Hx. apply (toUpperCase_padHex (Math_round x)).
  now apply Math_round_range.
Qed.

Lemma rgbToHex_hexOfBytes c :
  colorInRange c →
  rgbToHex c = hexOfBytes (Math_round (r c)) (Math_round (g c)) (Math_round (b c)).
Proof.
  intros (Hr & Hg & Hb). unfold rgbToHex, hexOfBytes.
  rewrite !toUpperCase_app, !toUpperCase_toHex by assumption.
  reflexivity.
Qed.

Lemma hexFieldValue_twoHexDigits n :
  0 <= n <= 255 →
  hexFieldValue (upperHexDigit (n / 16)) (upperHexDigit (n mod 16)) = Some n.
Proof.
  intros Hn.
  apply (bool_decide_eq_true_1 (hexFieldValue _ _ = Some n)).
  revert n Hn.
  apply (byte_forall (λ n, bool_decide
    (hexFieldValue (upperHexDigit (n / 16)) (upperHexDigit (n mod 16)) = Some n))).
  vm_compute. reflexivity.
Qed.

Lemma parseHex_hexOfBytes rr gg bb :
  0 <= rr <= 255 → 0 <= gg <= 255 → 0 <= bb <= 255 →
  parseHex (hexOfBytes rr gg bb) = Some (rr, gg, bb).
Proof.
  intros Hr Hg Hb. unfold hexOfBytes, twoHexDigits, parseHex. simpl.
  now rewrite !hexFieldValue_twoHexDigits.
Qed.

(** C3.  For a colour with every channel in [0,255], [rgbToHex] rounds
    each channel on its own to the nearest integer (which is a byte
    again), writes each as exactly two zero-padded hex digits, in the
    order R, G, B after a [#], all in upper case: seven characters.
    Black, white and red come out as [#000000], [#FFFFFF] and
    [#FF0000]. *)
Theorem rgbToHex_contract (c : RGBColor) (Hc : colorInRange c) :
  let rr := Math_round (r c) in
  let gg := Math_round (g c) in
  let bb := Math_round (b c) in
  ((Qabs (inject_Z rr - r c) <= 1 # 2)%Q
   ∧ (Qabs (inject_Z gg - g c) <= 1 # 2)%Q
   ∧ (Qabs (inject_Z bb - b c) <= 1 # 2)%Q)
  ∧ (0 <= rr <= 255 ∧ 0 <= gg <= 255 ∧ 0 <= bb <= 255)
  ∧ rgbToHex c
    = String "#" (twoHexDigits rr +:+ twoHexDigits gg +:+ twoHexDigits bb)
  ∧ String.length (rgbToHex c) = 7%nat
  ∧ rgbToHex (mkRGB 0 0 0) = "#000000"
  ∧ rgbToHex (mkRGB 255 255 255) = "#FFFFFF"
  ∧ rgbToHex (mkRGB 255 0 0) = "#FF0000".
Proof.
  intros rr gg bb. pose proof Hc as (Hr & Hg & Hb).
  split; [repeat split; apply Math_round_nearest|].
  split; [split; [|split]; apply Math_round_range; assumption|].
  split; [now apply rgbToHex_hexOfBytes|].
  split; [now rewrite rgbToHex_hexOfBytes|].
  repeat split; vm_compute; reflexivity.
Qed.

Lemma rgbToHex_contract_witness :
  colorInRange (mkRGB (255 # 2) 0 (21 # 2))
  ∧ rgbToHex (mkRGB (255 # 2) 0 (21 # 2)) = "#80000B".
Proof.
  assert (Hc : colorInRange (mkRGB (255 # 2) 0 (21 # 2))).
  { unfold colorInRange, inByteRange; simpl. repeat split; lra. }
  split; [exact Hc|].
  destruct (rgbToHex_contract _ Hc) as (_ & _ & Heq & _).
  rewrite Heq. vm_compute. reflexivity.
Defined.

(** C8.  Parsing back the hex colour of a colour with channels in
    [0,255] gives its three channels, each rounded to the nearest
    integer. *)
Theorem parseHex_rgbToHex (c : RGBColor) (Hc : colorInRange c) :
  parseHex (rgbToHex c)
  = Some (Math_round (r c), Math_round (g c), Math_round (b c)).
Proof.
  rewrite rgbToHex_hexOfBytes by assumption.
  destruct Hc as (Hr & Hg & Hb).
  apply parseHex_hexOfBytes; now apply Math_round_range.
Qed.

Lemma parseHex_rgbToHex_witness :
  colorInRange (mkRGB (383 # 3) (1 # 2) 255)
  ∧ parseHex (rgbToHex (mkRGB (383 # 3) (1 # 2) 255)) = Some (128, 1, 255).
Proof.
  assert (Hc : colorInRange (mkRGB (383 # 3) (1 # 2) 255)).
  { unfold colorInRange, inByteRange; simpl. repeat split; lra. }
  split; [exact Hc|].
  rewrite (parseHex_rgbToHex _ Hc). vm_compute. reflexivity.
Defined.

(** ** The pixel sampler *)

(** *** The set key tells triples apart *)

Lemma pretty_N_go_noComma x s : noComma s → noComma (pretty_N_go x s).
Proof.
  revert s. induction (N.lt_wf_0 x) as [x _ IH]; intros s Hs.
  assert (x = 0 ∨ 0 < x)%N as [->|Hpos] by lia.
  - now rewrite pretty_N_go_0.
  - rewrite pretty_N_go_step by assumption. apply IH.
    + now apply N.div_lt.
    + split; [|assumption]. unfold pretty_N_char.
      repeat case_match; discriminate.
Qed.

Lemma pretty_N_noComma (x : N) : noComma (pretty x).
Proof.
  unfold pretty, pretty_N. case_decide.
  - simpl. split; [discriminate|exact I].
  - apply pretty_N_go_noComma. exact I.
Qed.

Lemma pretty_Z_noComma (z : Z) : noComma (pretty z).
Proof.
  destruct z as [|q|q]; unfold pretty, pretty_Z.
  - simpl. split; [discriminate|exact I].
  - apply pretty_N_noComma.
  - simpl. split; [discriminate|]. apply pretty_N_noComma.
Qed.

Lemma comma_split s1 s2 t1 t2 :
  noComma s1 → noComma s2 →
  s1 +:+ String "," t1 = s2 +:+ String "," t2 → s1 = s2 ∧ t1 = t2.
Proof.
  revert s2. induction s1 as [|c s1 IH]; intros [|d s2]; simpl.
  - intros _ _ [= ->]. split; reflexivity.
  - intros _ [Hd _] [= Hc _]. now destruct Hd.
  - intros [Hc _] _ [= Hd _]. now destruct Hc.
  - intros [_ H1] [_ H2] [= -> Heq].
    destruct (IH _ H1 H2 Heq) as [-> ->]. split; reflexivity.
Qed.

Lemma pixelKey_inj rr gg bb rr' gg' bb' :
  pixelKey rr gg bb = pixelKey rr' gg' bb' → rr = rr' ∧ gg = gg' ∧ bb = bb'.
Proof.
  unfold pixelKey. intros Heq.
  apply comma_split in Heq as [Hr Heq]; try apply pretty_Z_noComma.
  apply comma_split in Heq as [Hg Hb]; try apply pretty_Z_noComma.
  apply pretty_Z_inj in Hr, Hg, Hb. now repeat split.
Qed.

Lemma tripleKey_inj t t' : tripleKey t = tripleKey t' → t = t'.
Proof.
  destruct t as [[rr gg] bb], t' as [[rr' gg'] bb']. unfold tripleKey. simpl.
  intros H. apply pixelKey_inj in H as (-> & -> & ->). reflexivity.
Qed.

#[local] Instance tripleColor_inj : Inj (=) (=) tripleColor.
Proof.
  intros t t'. destruct t as [[rr gg] bb], t' as [[rr' gg'] bb'].
  unfold tripleColor, byteColor, inject_Z. simpl.
  intros [= -> -> ->]. reflexivity.
Qed.

(** *** The loop against its specification *)

(** Induction on a buffer, four bytes at a time. *)
Lemma rgba_ind (P : list Z → Prop) :
  (∀ l, (length l < 4)%nat → P l) →
  (∀ rr gg bb a rest, P rest → P (rr :: gg :: bb :: a :: rest)) →
  ∀ l, P l.
Proof.
  intros Hshort Hstep. fix IH 1.
  intros [|rr [|gg [|bb [|a rest]]]];
    try (apply Hshort; simpl; lia).
  apply Hstep, IH.
Qed.

Lemma opaqueTriples_short l : (length l < 4)%nat → opaqueTriples l = [].
Proof.
  destruct l as [|rr [|gg [|bb [|a rest]]]]; simpl; try reflexivity; lia.
Qed.

Lemma opaqueTriples_opaque rr gg bb rest :
  opaqueTriples (rr :: gg :: bb :: 255 :: rest) = (rr, gg, bb) :: opaqueTriples rest.
Proof. reflexivity. Qed.

Lemma opaqueTriples_transparent rr gg bb a rest :
  a ≠ 255 →
  opaqueTriples (rr :: gg :: bb :: a :: rest) = opaqueTriples rest.
Proof.
  intros Ha. unfold opaqueTriples. simpl.
  rewrite filter_cons_False; [reflexivity|].
  unfold isOpaque. simpl. intros H. apply Z.eqb_eq in H. contradiction.
Qed.

Lemma samplePixelsFrom_dedupFrom data :
  Forall isByte data →
  ∀ seen (pixelSet : gset string) pixels,
    (∀ t, tripleKey t ∈ pixelSet ↔ t ∈ seen) →
    pixels = map tripleColor seen →
    samplePixelsFrom data pixelSet pixels
    = map tripleColor (dedupFrom seen (opaqueTriples data)).
Proof.
  induction data as [l Hl|rr gg bb a rest IH] using rgba_ind;
    intros Hbytes seen pixelSet pixels Hset ->.
  - rewrite opaqueTriples_short by assumption.
    destruct l as [|? [|? [|? [|? ?]]]]; simpl in *; try reflexivity; lia.
  - rewrite !Forall_cons in Hbytes. destruct Hbytes as (_ & _ & _ & Ha & Hrest).
    cbn [samplePixelsFrom].
    destruct (a <? 255) eqn:Hlt.
    + apply Z.ltb_lt in Hlt.
      rewrite opaqueTriples_transparent by lia.
      now apply IH.
    + apply Z.ltb_ge in Hlt.
      assert (a = 255) as -> by (unfold isByte in Ha; lia).
      rewrite opaqueTriples_opaque. cbn [dedupFrom].
      change (pixelKey rr gg bb) with (tripleKey (rr, gg, bb)).
      destruct (decide (tripleKey (rr, gg, bb) ∈ pixelSet)) as [Hin|Hout];
        destruct (decide ((rr, gg, bb) ∈ seen)) as [Hin'|Hout'];
        try (apply Hset in Hin; contradiction);
        try (apply Hset in Hin'; contradiction).
      * now apply IH.
      * apply IH; [assumption| |].
        -- intros t. rewrite elem_of_union, elem_of_singleton, elem_of_app,
             list_elem_of_singleton, Hset.
           split; intros [H|H]; auto.
           ++ right. now apply tripleKey_inj.
           ++ left. now subst.
        -- now rewrite map_app.
Qed.

Lemma dedupFrom_firstOccurrences l : ∀ seen,
  dedupFrom seen l = seen ++ filter (λ t, t ∉ seen) (firstOccurrences l).
Proof.
  induction l as [|x l IH]; intros seen; simpl.
  - now rewrite app_nil_r.
  - destruct (decide (x ∈ seen)) as [Hin|Hout].
    + rewrite IH, filter_cons_False by (intros H; now apply H).
      rewrite list_filter_filter. f_equal.
      apply list_filter_iff. intros t. split; [|tauto].
      intros Ht. split; [assumption|]. intros ->. contradiction.
    + rewrite IH, filter_cons_True by assumption.
      rewrite list_filter_filter, <- app_assoc. simpl. do 2 f_equal.
      apply list_filter_iff. intros t.
      rewrite elem_of_app, list_elem_of_singleton. tauto.
Qed.

Lemma samplePixels_distinctOpaque data :
  Forall isByte data → samplePixels data = map tripleColor (distinctOpaque data).
Proof.
  intros Hbytes. unfold samplePixels, distinctOpaque.
  rewrite (samplePixelsFrom_dedupFrom data Hbytes [] ∅ []); [|set_solver|reflexivity].
  rewrite dedupFrom_firstOccurrences. simpl. f_equal.
  induction (firstOccurrences _) as [|x l IH]; [reflexivity|].
  rewrite filter_cons_True by apply not_elem_of_nil. now f_equal.
Qed.

Lemma elem_of_firstOccurrences l t : t ∈ firstOccurrences l ↔ t ∈ l.
Proof.
  induction l as [|x l IH]; simpl; [reflexivity|].
  rewrite !elem_of_cons, list_elem_of_filter, IH.
  destruct (decide (t = x)); tauto.
Qed.

Lemma NoDup_firstOccurrences l : NoDup (firstOccurrences l).
Proof.
  induction l as [|x l IH]; simpl; [constructor|].
  apply NoDup_cons. split.
  - rewrite list_elem_of_filter. tauto.
  - now apply NoDup_filter.
Qed.

Lemma elem_of_opaqueTriples data t :
  t ∈ opaqueTriples data ↔ (t, 255) ∈ bufferPixels data.
Proof.
  unfold opaqueTriples. rewrite list_elem_of_In, in_map_iff. split.
  - intros ([t' a] & <- & Hin). apply list_elem_of_In, list_elem_of_filter in Hin.
    destruct Hin as [Ha Hin]. unfold isOpaque in Ha. simpl in *.
    apply Z.eqb_eq in Ha. now subst.
  - intros Hin. exists (t, 255). split; [reflexivity|].
    apply list_elem_of_In, list_elem_of_filter. now split.
Qed.

Lemma firstOccurrences_constant t l :
  l ≠ [] → (∀ x, x ∈ l → x = t) → firstOccurrences l = [t].
Proof.
  destruct l as [|x l]; [congruence|]. intros _ Hall. simpl.
  rewrite (Hall x) by apply list_elem_of_here. f_equal.
  assert (Hl : ∀ y, y ∈ firstOccurrences l → y = t).
  { intros y Hy. apply Hall. right. now apply elem_of_firstOccurrences. }
  induction (firstOccurrences l) as [|y l' IH]; [reflexivity|].
  rewrite filter_cons_False.
  - apply IH. intros z Hz. apply Hl. now right.
  - intros Hne. apply Hne, Hl. left.
Qed.

Lemma bufferPixels_nonempty data :
  data ≠ [] → (length data mod 4 = 0)%nat → bufferPixels data ≠ [].
Proof.
  destruct data as [|rr [|gg [|bb [|a rest]]]]; simpl; try congruence;
    try discriminate.
Qed.

(** C2.  On a buffer of RGBA bytes the sampler returns, in the order of
    their first occurrence, exactly the distinct [(r, g, b)] of the
    pixels whose alpha is 255: a pixel with a smaller alpha contributes
    nothing, a repeated colour is kept once, a buffer of one opaque
    colour gives one sample, and a buffer without an opaque pixel gives
    no sample and an empty palette for every [k]. *)
Theorem sampler_postcondition (data : list Z) (Hwf : rgbaBuffer data) :
  samplePixels data = map tripleColor (distinctOpaque data)
  ∧ distinctOpaque data = firstOccurrences (opaqueTriples data)
  ∧ NoDup (distinctOpaque data)
  ∧ NoDup (samplePixels data)
  ∧ (∀ t, t ∈ distinctOpaque data ↔ (t, 255) ∈ bufferPixels data)
  ∧ (∀ c, c ∈ samplePixels data
          ↔ ∃ t, c = tripleColor t ∧ (t, 255) ∈ bufferPixels data)
  ∧ (∀ t, data ≠ [] → (∀ p, p ∈ bufferPixels data → p = (t, 255)) →
          samplePixels data = [tripleColor t])
  ∧ ((∀ p, p ∈ bufferPixels data → snd p < 255) →
       samplePixels data = []
       ∧ ∀ randomSort k, extractColors randomSort data k = Some []).
Proof.
  destruct Hwf as [Hbytes Hlen].
  pose proof (samplePixels_distinctOpaque data Hbytes) as Hspec.
  assert (Hmem : ∀ t, t ∈ distinctOpaque data ↔ (t, 255) ∈ bufferPixels data).
  { intros t. unfold distinctOpaque.
    now rewrite elem_of_firstOccurrences, elem_of_opaqueTriples. }
  split; [exact Hspec|]. split; [reflexivity|].
  split; [apply NoDup_firstOccurrences|].
  split.
  { rewrite Hspec. change (NoDup (tripleColor <$> distinctOpaque data)).
    apply (NoDup_fmap_2 _), NoDup_firstOccurrences. }
  split; [exact Hmem|].
  split.
  { intros c. rewrite Hspec, list_elem_of_In, in_map_iff. split.
    - intros (t & <- & Hin). exists t. split; [reflexivity|].
      now apply Hmem, list_elem_of_In.
    - intros (t & -> & Hin). exists t. split; [reflexivity|].
      now apply list_elem_of_In, Hmem. }
  split.
  { intros t Hne Hall. rewrite Hspec. unfold distinctOpaque.
    rewrite (firstOccurrences_constant t); [reflexivity| |].
    - pose proof (bufferPixels_nonempty data Hne Hlen) as Hpix.
      destruct (bufferPixels data) as [|p ps] eqn:Hps; [congruence|].
      assert (Hin : t ∈ opaqueTriples data).
      { apply elem_of_opaqueTriples. rewrite Hps.
        rewrite <- (Hall p) by left. left. }
      intros Hnil. rewrite Hnil in Hin. now apply not_elem_of_nil in Hin.
    - intros x Hx. apply elem_of_opaqueTriples in Hx.
      apply Hall in Hx. congruence. }
  intros Hall.
  assert (Hnil : distinctOpaque data = []).
  { destruct (distinctOpaque data) as [|t l] eqn:Hd; [reflexivity|].
    assert (Hin : (t, 255) ∈ bufferPixels data) by (apply Hmem; left).
    apply Hall in Hin. simpl in Hin. lia. }
  assert (Hs : samplePixels data = []) by now rewrite Hspec, Hnil.
  split; [exact Hs|].
  intros randomSort k. unfold extractColors. now rewrite Hs.
Qed.

(** ** k-means: one run of the loop body *)

(** *** Assignment *)

Lemma nearestFrom_bound pixel cs : ∀ i minDistance clusterIndex,
  nearestFrom pixel cs i minDistance clusterIndex = clusterIndex
  ∨ (i ≤ nearestFrom pixel cs i minDistance clusterIndex < i + length cs)%nat.
Proof.
  induction cs as [|c cs IH]; intros i md ci; simpl; [now left|].
  destruct (belowMin _ md).
  - right. destruct (IH (S i) (Some (squaredDistance pixel c)) i) as [->|H]; lia.
  - destruct (IH (S i) md ci) as [->|H]; [now left|right; lia].
Qed.

Lemma nearestCentroid_lt pixel cs :
  cs ≠ [] → (nearestCentroid pixel cs < length cs)%nat.
Proof.
  destruct cs as [|c cs]; [congruence|]. intros _.
  unfold nearestCentroid. simpl.
  destruct (nearestFrom_bound pixel cs 1 (Some (squaredDistance pixel c)) 0)
    as [->|H]; lia.
Qed.

Lemma pushTo_spec clusters i pixel :
  (i < length clusters)%nat →
  ∃ cluster,
    clusters !! i = Some cluster
    ∧ pushTo clusters i pixel = Some (<[i := cluster ++ [pixel]]> clusters).
Proof.
  intros Hi. destruct (lookup_lt_is_Some_2 clusters i Hi) as [cluster Hc].
  exists cluster. split; [assumption|]. unfold pushTo. now rewrite Hc.
Qed.

Lemma assignPixels_Some pixels centroids :
  centroids ≠ [] →
  ∀ clusters,
    (length centroids ≤ length clusters)%nat →
    emptyFrom (length centroids) clusters →
    ∃ clusters',
      assignPixels pixels centroids clusters = Some clusters'
      ∧ length clusters' = length clusters
      ∧ emptyFrom (length centroids) clusters'.
Proof.
  intros Hne. induction pixels as [|pixel pixels IH]; intros clusters Hlen Hempty.
  - exists clusters. now repeat split.
  - pose proof (nearestCentroid_lt pixel centroids Hne) as Hi.
    destruct (pushTo_spec clusters (nearestCentroid pixel centroids) pixel)
      as (cluster & Hc & Hpush); [lia|].
    simpl. rewrite Hpush. simpl.
    destruct (IH (<[nearestCentroid pixel centroids := cluster ++ [pixel]]> clusters))
      as (clusters' & Hres & Hlen' & Hempty').
    + rewrite length_insert. lia.
    + intros j cl Hj Hcl.
      destruct (decide (j = nearestCentroid pixel centroids)) as [->|Hneq];
        [assumption|].
      rewrite list_lookup_insert_ne in Hj by congruence. eauto.
    + exists clusters'. rewrite length_insert in Hlen'. now repeat split.
Qed.

Lemma assignPixels_Forall (Q : RGBColor → Prop) pixels centroids :
  Forall Q pixels →
  ∀ clusters clusters',
    assignPixels pixels centroids clusters = Some clusters' →
    Forall (Forall Q) clusters → Forall (Forall Q) clusters'.
Proof.
  induction 1 as [|pixel pixels Hp Hps IH]; intros clusters clusters' Hres Hcl.
  - simpl in Hres. now injection Hres as <-.
  - simpl in Hres. unfold pushTo in Hres.
    destruct (clusters !! nearestCentroid pixel centroids) as [cluster|] eqn:Hc;
      simpl in Hres; [|discriminate].
    apply (IH _ _ Hres). apply Forall_insert; [assumption|].
    apply Forall_app. split; [|now repeat constructor].
    exact (Forall_lookup_1 _ _ _ _ Hcl Hc).
Qed.

(** *** Update *)

Lemma setCentroid_lookup cs i c cs' :
  setCentroid cs i c = Some cs' →
  ∀ j, cs' !! j = if decide (j = i) then Some c else cs !! j.
Proof.
  unfold setCentroid. intros H j.
  destruct (i <? length cs)%nat eqn:Hlt.
  - apply Nat.ltb_lt in Hlt. injection H as <-.
    rewrite list_lookup_insert. repeat case_decide; try reflexivity; lia.
  - destruct (i =? length cs)%nat eqn:Heq; [|discriminate].
    apply Nat.eqb_eq in Heq. injection H as <-. subst i.
    case_decide as Hj.
    + subst j. now rewrite lookup_app_r, Nat.sub_diag by lia.
    + destruct (decide (j < length cs)%nat).
      * now rewrite lookup_app_l.
      * rewrite !lookup_ge_None_2; [reflexivity|lia|].
        rewrite length_app. simpl. lia.
Qed.

Lemma updateFrom_lookup clusters : ∀ todo i cs cs',
  updateFrom clusters i todo cs = Some cs' →
  ∀ j, cs' !! j =
       match clusters !! j with
       | Some (p :: cluster) =>
           if decide (i ≤ j < i + todo)%nat
           then Some (meanColor (p :: cluster)) else cs !! j
       | _ => cs !! j
       end.
Proof.
  induction todo as [|todo IH]; intros i cs cs' H j; simpl in H.
  - injection H as <-. destruct (clusters !! j) as [[|p cl]|]; try reflexivity.
    case_decide; [lia|reflexivity].
  - destruct (clusters !! i) as [[|p cl]|] eqn:Hi; [| |discriminate].
    + rewrite (IH _ _ _ H j).
      destruct (clusters !! j) as [[|q cl']|] eqn:Hj; try reflexivity.
      repeat case_decide; try reflexivity; try lia.
      assert (j = i) by lia. subst j. congruence.
    + destruct (setCentroid cs i (meanColor (p :: cl))) as [cs1|] eqn:Hset;
        simpl in H; [|discriminate].
      rewrite (IH _ _ _ H j), (setCentroid_lookup _ _ _ _ Hset j).
      destruct (clusters !! j) as [[|q cl']|] eqn:Hj.
      * case_decide; [subst j; congruence|reflexivity].
      * repeat case_decide; try reflexivity; try lia.
        subst j. congruence.
      * case_decide; [subst j; congruence|reflexivity].
Qed.

Lemma updateFrom_Some clusters : ∀ todo i cs,
  (∀ j, (i ≤ j < i + todo)%nat →
        ∃ cluster, clusters !! j = Some cluster
                   ∧ (cluster ≠ [] → (j < length cs)%nat)) →
  ∃ cs', updateFrom clusters i todo cs = Some cs' ∧ length cs' = length cs.
Proof.
  induction todo as [|todo IH]; intros i cs Hpre; simpl.
  - now exists cs.
  - destruct (Hpre i) as (cluster & Hi & Hlt); [lia|]. rewrite Hi.
    destruct cluster as [|p cl].
    + apply IH. intros j Hj. apply Hpre. lia.
    + assert (Hin : (i < length cs)%nat) by (apply Hlt; discriminate).
      unfold setCentroid. apply Nat.ltb_lt in Hin as Hb. rewrite Hb. simpl.
      destruct (IH (S i) (<[i := meanColor (p :: cl)]> cs)) as (cs' & Hres & Hlen).
      * intros j Hj. rewrite length_insert. apply Hpre. lia.
      * exists cs'. rewrite length_insert in Hlen. now split.
Qed.

Lemma updateFrom_Forall (Q : RGBColor → Prop) clusters :
  (∀ j cluster, clusters !! j = Some cluster → cluster ≠ [] → Q (meanColor cluster)) →
  ∀ todo i cs cs',
    updateFrom clusters i todo cs = Some cs' → Forall Q cs → Forall Q cs'.
Proof.
  intros Hmean todo i cs cs' H Hcs.
  apply Forall_lookup_2. intros j c Hj.
  rewrite (updateFrom_lookup _ _ _ _ _ H j) in Hj.
  destruct (clusters !! j) as [[|p cl]|] eqn:Hcl;
    try exact (Forall_lookup_1 _ _ _ _ Hcs Hj).
  case_decide; [|exact (Forall_lookup_1 _ _ _ _ Hcs Hj)].
  injection Hj as <-. eapply Hmean; [eassumption|discriminate].
Qed.

(** *** The mean of colours in range is in range *)

Lemma fold_addColor_range l :
  Forall colorInRange l →
  ∀ acc,
    let s := fold_left addColor l acc in
    let n := inject_Z (Z.of_nat (length l)) in
    (r acc <= r s ∧ r s <= r acc + 255 * n
     ∧ g acc <= g s ∧ g s <= g acc + 255 * n
     ∧ b acc <= b s ∧ b s <= b acc + 255 * n)%Q.
Proof.
  induction 1 as [|x l (Hr & Hg & Hb) Hl IH]; intros acc; cbn zeta.
  - cbn [fold_left length]. change (inject_Z (Z.of_nat 0)) with 0%Q.
    repeat split; lra.
  - specialize (IH (addColor acc x)). cbn zeta in IH.
    cbn [fold_left length].
    rewrite Nat2Z.inj_succ, <- Z.add_1_r, inject_Z_plus.
    change (inject_Z 1) with 1%Q.
    unfold inByteRange in Hr, Hg, Hb.
    set (s := fold_left addColor l (addColor acc x)) in *.
    set (n := inject_Z (Z.of_nat (length l))) in *.
    simpl in IH. repeat split; lra.
Qed.

Lemma meanColor_range cluster :
  cluster ≠ [] → Forall colorInRange cluster → colorInRange (meanColor cluster).
Proof.
  intros Hne Hall.
  pose proof (fold_addColor_range cluster Hall {| r := 0; g := 0; b := 0 |}%Q) as H.
  cbn zeta in H. simpl in H. fold (sumColors cluster) in H.
  assert (Hn : (0 < inject_Z (Z.of_nat (length cluster)))%Q).
  { change 0%Q with (inject_Z 0). rewrite <- Zlt_Qlt.
    destruct cluster; [congruence|]. simpl. lia. }
  unfold meanColor, colorInRange, inByteRange. simpl.
  set (n := inject_Z (Z.of_nat (length cluster))) in *.
  destruct H as (? & ? & ? & ? & ? & ?).
  repeat split;
    first [apply Qle_shift_div_l; [exact Hn|lra]
          |apply Qle_shift_div_r; [exact Hn|lra]].
Qed.

(** *** The body as a whole *)

Lemma kMeansBody_inv pixels k st st' :
  kMeansBody pixels k st = Some st' →
  ∃ clusters',
    assignPixels pixels (centroids st) (replicate k []) = Some clusters'
    ∧ updateFrom clusters' 0 k (centroids st) = Some (centroids st')
    ∧ clusters st' = clusters'
    ∧ previousCentroids st' = centroids st
    ∧ iterations st' = S (iterations st).
Proof.
  unfold kMeansBody. intros H.
  destruct (assignPixels _ _ _) as [cl|]; simpl in H; [|discriminate].
  destruct (updateFrom _ _ _ _) as [cs|] eqn:Hup; simpl in H; [|discriminate].
  injection H as <-. exists cl. now repeat split.
Qed.

Lemma kMeansBody_Some pixels k st :
  centroids st ≠ [] → (length (centroids st) ≤ k)%nat →
  ∃ st', kMeansBody pixels k st = Some st'
         ∧ length (centroids st') = length (centroids st).
Proof.
  intros Hne Hk.
  destruct (assignPixels_Some pixels (centroids st) Hne (replicate k []))
    as (clusters' & Hassign & Hlen & Hempty).
  - now rewrite length_replicate.
  - intros j cluster Hj Hc. apply lookup_replicate in Hj as [-> _]. congruence.
  - rewrite length_replicate in Hlen.
    destruct (updateFrom_Some clusters' k 0 (centroids st)) as (cs' & Hup & Hlen').
    + intros j Hj.
      destruct (lookup_lt_is_Some_2 clusters' j) as [cluster Hc]; [lia|].
      exists cluster. split; [assumption|]. intros Hcl. eapply Hempty; eassumption.
    + unfold kMeansBody. rewrite Hassign. simpl. rewrite Hup. simpl.
      eexists. split; [reflexivity|]. exact Hlen'.
Qed.

Lemma hasConverged_nil st :
  centroids st = [] → previousCentroids st = [] → hasConverged st = true.
Proof. unfold hasConverged. now intros -> ->. Qed.

Lemma runInv_step_full pixels k maxIterations st :
  runInv k st → loopTest maxIterations st = true →
  ∃ st', kMeansBody pixels k st = Some st' ∧ runInv k st'
         ∧ length (centroids st') = length (centroids st)
         ∧ previousCentroids st' = centroids st.
Proof.
  intros [Hk Hnil] Htest.
  assert (Hne : centroids st ≠ []).
  { intros Hc. unfold loopTest in Htest.
    rewrite (hasConverged_nil st Hc (Hnil Hc)), andb_false_r in Htest.
    discriminate. }
  destruct (kMeansBody_Some pixels k st Hne Hk) as (st' & Hbody & Hlen).
  exists st'. split; [assumption|].
  pose proof Hbody as Hinv.
  apply kMeansBody_inv in Hinv as (_ & _ & _ & _ & Hprev & _).
  repeat split; try assumption; [lia|].
  intros Hc. rewrite Hc in Hlen. destruct (centroids st); [congruence|discriminate].
Qed.

Lemma runInv_step pixels k maxIterations st :
  runInv k st → loopTest maxIterations st = true →
  ∃ st', kMeansBody pixels k st = Some st' ∧ runInv k st'.
Proof.
  intros HI Htest.
  destruct (runInv_step_full pixels k maxIterations st HI Htest)
    as (st' & Hbody & HI' & _).
  now exists st'.
Qed.

Lemma runInv_init pixels k : runInv k (kMeansInit pixels k).
Proof.
  split; simpl; [|reflexivity]. rewrite length_take. lia.
Qed.

(** ** k-means: the loop *)

Lemma kMeansLoop_eq pixels k maxIterations st :
  kMeansLoop pixels k maxIterations st =
  if loopTest maxIterations st
  then match kMeansBody pixels k st with
       | Some st' => kMeansLoop pixels k maxIterations st'
       | None => None
       end
  else Some st.
Proof.
  funelim (kMeansLoop pixels k maxIterations st).
  all: try match goal with E : loopTest _ _ = _ |- _ => rewrite E end.
  all: try match goal with E : kMeansBody _ _ _ = _ |- _ => rewrite E end.
  all: reflexivity.
Qed.

Lemma kMeansIter_S pixels k n st :
  kMeansIter pixels k (S n) st
  = st' ← kMeansBody pixels k st; kMeansIter pixels k n st'.
Proof.
  induction n as [|n IH].
  - simpl. now destruct (kMeansBody pixels k st).
  - change (kMeansIter pixels k (S (S n)) st)
      with (st' ← kMeansIter pixels k (S n) st; kMeansBody pixels k st').
    rewrite IH. now destruct (kMeansBody pixels k st).
Qed.

Lemma kMeansIter_iterations pixels k n : ∀ st st',
  kMeansIter pixels k n st = Some st' → iterations st' = (iterations st + n)%nat.
Proof.
  induction n as [|n IH]; intros st st' H.
  - injection H as <-. lia.
  - simpl in H. destruct (kMeansIter pixels k n st) as [st1|] eqn:H1;
      simpl in H; [|discriminate].
    apply IH in H1. apply kMeansBody_inv in H as (_ & _ & _ & _ & _ & Hit). lia.
Qed.

(** The loop under an invariant [I] that lets the body run: it returns
    the state after some number [n] of runs of the body, the test holds
    of the states before and fails on the last. *)
Lemma kMeansLoop_trace pixels k maxIterations (I : KState → Prop) :
  (∀ st, I st → loopTest maxIterations st = true →
         ∃ st', kMeansBody pixels k st = Some st' ∧ I st') →
  ∀ st, I st →
  ∃ n st',
    kMeansLoop pixels k maxIterations st = Some st'
    ∧ kMeansIter pixels k n st = Some st'
    ∧ loopTest maxIterations st' = false
    ∧ ∀ j, (j ≤ n)%nat →
           ∃ stj, kMeansIter pixels k j st = Some stj ∧ I stj
                  ∧ ((j < n)%nat → loopTest maxIterations stj = true).
Proof.
  intros Hstep st.
  remember (maxIterations - iterations st)%nat as m eqn:Hm.
  revert st Hm. induction m as [m IH] using lt_wf_ind. intros st Hm HI.
  rewrite kMeansLoop_eq.
  destruct (loopTest maxIterations st) eqn:Htest.
  - destruct (Hstep st HI Htest) as (st1 & Hbody & HI1).
    rewrite Hbody.
    pose proof Hbody as Hinv.
    apply kMeansBody_inv in Hinv as (_ & _ & _ & _ & _ & Hit).
    unfold loopTest in Htest. apply andb_true_iff in Htest as [Hlt Hconv].
    apply Nat.ltb_lt in Hlt.
    destruct (IH (maxIterations - iterations st1)%nat ltac:(lia) st1 eq_refl HI1)
      as (n & st' & Hloop & Hiter & Hend & Htrace).
    exists (S n), st'. split; [exact Hloop|].
    split; [rewrite kMeansIter_S, Hbody; exact Hiter|].
    split; [exact Hend|].
    intros [|j] Hj.
    + exists st. split; [reflexivity|]. split; [exact HI|]. intros _.
      unfold loopTest. apply andb_true_iff. split; [now apply Nat.ltb_lt|exact Hconv].
    + destruct (Htrace j ltac:(lia)) as (stj & Hj1 & HIj & Hjt).
      exists stj. split; [rewrite kMeansIter_S, Hbody; exact Hj1|].
      split; [exact HIj|]. intros Hlt'. apply Hjt. lia.
  - exists 0%nat, st. split; [reflexivity|]. split; [reflexivity|].
    split; [exact Htest|].
    intros j Hj. assert (j = 0)%nat as -> by lia.
    exists st. split; [reflexivity|]. split; [exact HI|]. lia.
Qed.

(** C4.  The loop of [kMeans] ends after some number [n] of runs of its
    body that is at most [maxIterations]: it stops at the first state
    that has converged or at the cap, whichever comes first, and
    [kMeans] returns the centroids of that state. *)
Theorem kMeans_iteration_bound (randomSort : list RGBColor → list RGBColor)
    (pixels : list RGBColor) (k maxIterations : nat) :
  let init := kMeansInit (randomSort pixels) k in
  ∃ n st,
    kMeansRun randomSort pixels k maxIterations = Some st
    ∧ kMeans randomSort pixels k maxIterations = Some (centroids st)
    ∧ kMeansIter (randomSort pixels) k n init = Some st
    ∧ iterations st = n
    ∧ (n ≤ maxIterations)%nat
    ∧ (n = maxIterations ∨ hasConverged st = true)
    ∧ ∀ j, (j < n)%nat →
           ∃ stj, kMeansIter (randomSort pixels) k j init = Some stj
                  ∧ iterations stj = j
                  ∧ hasConverged stj = false.
Proof.
  intros init.
  destruct (kMeansLoop_trace (randomSort pixels) k maxIterations (runInv k)
              (runInv_step _ k maxIterations) init (runInv_init _ k))
    as (n & st & Hloop & Hiter & Hend & Htrace).
  assert (Hn : iterations st = n).
  { apply kMeansIter_iterations in Hiter. simpl in Hiter. lia. }
  assert (Hbefore : ∀ j, (j < n)%nat →
            ∃ stj, kMeansIter (randomSort pixels) k j init = Some stj
                   ∧ iterations stj = j
                   ∧ (j < maxIterations)%nat ∧ hasConverged stj = false).
  { intros j Hj. destruct (Htrace j ltac:(lia)) as (stj & Hj1 & _ & Hjt).
    exists stj. split; [exact Hj1|].
    apply kMeansIter_iterations in Hj1. simpl in Hj1.
    specialize (Hjt Hj). unfold loopTest in Hjt.
    apply andb_true_iff in Hjt as [Hlt Hc].
    apply Nat.ltb_lt in Hlt. apply negb_true_iff in Hc.
    repeat split; [lia|lia|exact Hc]. }
  exists n, st. unfold kMeans, kMeansRun. fold init. rewrite Hloop.
  split; [reflexivity|]. split; [reflexivity|]. split; [exact Hiter|].
  split; [exact Hn|].
  assert (Hle : (n ≤ maxIterations)%nat).
  { destruct n as [|n']; [lia|].
    destruct (Hbefore n' ltac:(lia)) as (_ & _ & _ & Hlt & _). lia. }
  split; [exact Hle|]. split.
  - unfold loopTest in Hend. apply andb_false_iff in Hend as [Hlt|Hc].
    + apply Nat.ltb_ge in Hlt. left. lia.
    + right. now apply negb_false_iff in Hc.
  - intros j Hj. destruct (Hbefore j Hj) as (stj & H1 & H2 & _ & H3).
    now exists stj.
Qed.

(** ** The convergence test *)

Lemma Qltb_lt x y : Qltb x y = true ↔ (x < y)%Q.
Proof.
  unfold Qltb. rewrite negb_true_iff. split.
  - intros Hb. apply Qnot_le_lt. intros Hle.
    apply Qle_bool_iff in Hle. congruence.
  - intros Hlt. destruct (Qle_bool y x) eqn:Hb; [|reflexivity].
    apply Qle_bool_iff in Hb. exfalso. exact (Qlt_not_le _ _ Hlt Hb).
Qed.

Lemma closeTo_true centroid prev :
  closeTo centroid prev = true ↔ movedLessThanOne prev centroid.
Proof.
  unfold closeTo, Math_abs, movedLessThanOne.
  rewrite !andb_true_iff, !Qltb_lt. tauto.
Qed.

Lemma forallb_imap {A} (f : nat → A → bool) (l : list A) :
  forallb id (imap f l) = true ↔ ∀ i x, l !! i = Some x → f i x = true.
Proof.
  revert f. induction l as [|y l IH]; intros f.
  - simpl. split; [intros _ i x Hi; discriminate|reflexivity].
  - rewrite imap_cons. cbn [forallb]. rewrite andb_true_iff, IH. unfold id. split.
    + intros [H0 HS] [|i] x Hi; [now injection Hi as <-|]. now apply HS.
    + intros H. split; [now apply (H 0%nat)|]. intros i x Hi. now apply (H (S i)).
Qed.

Lemma hasConverged_true st :
  hasConverged st = true
  ↔ Forall2 movedLessThanOne (previousCentroids st) (centroids st).
Proof.
  unfold hasConverged. rewrite Forall2_same_length_lookup.
  destruct (length (previousCentroids st) =? length (centroids st))%nat eqn:Hlen;
    simpl.
  - apply Nat.eqb_eq in Hlen. rewrite forallb_imap. split.
    + intros H. split; [exact Hlen|]. intros i p c Hp Hc.
      specialize (H i c Hc). rewrite Hp in H. now apply closeTo_true.
    + intros [_ H] i c Hc.
      destruct (lookup_lt_is_Some_2 (previousCentroids st) i) as [p Hp].
      { rewrite Hlen. now apply lookup_lt_Some in Hc. }
      rewrite Hp. apply closeTo_true. now apply (H i p c).
  - apply Nat.eqb_neq in Hlen. split; [discriminate|]. intros [H _]. contradiction.
Qed.

(** C5.  The test [hasConverged] succeeds exactly when the centroids
    are as many as the previous ones and every channel of every one
    differs by less than one from the previous value; at the test that
    follows a run of the body, the previous centroids are those from
    before that run's update.  Before the first run there are no
    previous centroids and the test fails, so with at least one sample,
    [1 <= k < |samples|] and a positive cap the body runs at least
    once. *)
Theorem convergence_test (randomSort : list RGBColor → list RGBColor)
    (Hperm : ∀ l, randomSort l ≡ₚ l)
    (pixels : list RGBColor) (k maxIterations : nat)
    (Hne : pixels ≠ []) (Hk : (1 ≤ k)%nat) (Hlen : (k < length pixels)%nat)
    (Hmax : (1 ≤ maxIterations)%nat) :
  let init := kMeansInit (randomSort pixels) k in
  (∀ st, hasConverged st = true
         ↔ Forall2 movedLessThanOne (previousCentroids st) (centroids st))
  ∧ previousCentroids init = []
  ∧ hasConverged init = false
  ∧ ∃ n st,
      kMeansRun randomSort pixels k maxIterations = Some st
      ∧ iterations st = n
      ∧ (1 ≤ n)%nat
      ∧ ∀ j, (j < n)%nat →
             ∃ stj stj',
               kMeansIter (randomSort pixels) k j init = Some stj
               ∧ kMeansBody (randomSort pixels) k stj = Some stj'
               ∧ kMeansIter (randomSort pixels) k (S j) init = Some stj'
               ∧ previousCentroids stj' = centroids stj
               ∧ length (centroids stj') = length (centroids stj).
Proof.
  intros init.
  assert (Hinit : hasConverged init = false).
  { destruct (hasConverged init) eqn:E; [|reflexivity].
    apply hasConverged_true, Forall2_length in E. simpl in E.
    rewrite length_take, (Permutation_length (Hperm pixels)) in E. lia. }
  split; [exact hasConverged_true|]. split; [reflexivity|].
  split; [exact Hinit|].
  destruct (kMeansLoop_trace (randomSort pixels) k maxIterations (runInv k)
              (runInv_step _ k maxIterations) init (runInv_init _ k))
    as (n & st & Hloop & Hiter & Hend & Htrace).
  exists n, st. split; [exact Hloop|].
  split; [apply kMeansIter_iterations in Hiter; simpl in Hiter; lia|].
  split.
  - destruct n as [|n']; [|lia]. injection Hiter as <-.
    unfold loopTest in Hend. rewrite Hinit in Hend. simpl in Hend.
    rewrite andb_true_r in Hend. apply Nat.ltb_ge in Hend. lia.
  - intros j Hj.
    destruct (Htrace j ltac:(lia)) as (stj & Hj1 & HIj & Hjt).
    destruct (runInv_step_full (randomSort pixels) k maxIterations stj HIj (Hjt Hj))
      as (stj' & Hbody & _ & Hl & Hp).
    exists stj, stj'. repeat split; try assumption.
    change (kMeansIter (randomSort pixels) k (S j) init)
      with (st' ← kMeansIter (randomSort pixels) k j init;
            kMeansBody (randomSort pixels) k st').
    now rewrite Hj1.
Qed.

(** ** Centroids stay in range; empty clusters keep their centroid *)

Lemma assignPixels_length pixels centroids : ∀ clusters clusters',
  assignPixels pixels centroids clusters = Some clusters' →
  length clusters' = length clusters.
Proof.
  induction pixels as [|pixel pixels IH]; intros clusters clusters' H; simpl in H.
  - now injection H as <-.
  - unfold pushTo in H.
    destruct (clusters !! nearestCentroid pixel centroids) as [cluster|];
      simpl in H; [|discriminate].
    apply IH in H. now rewrite length_insert in H.
Qed.

Lemma kMeansBody_clusters (Q : RGBColor → Prop) pixels k st st' :
  Forall Q pixels → kMeansBody pixels k st = Some st' →
  Forall (Forall Q) (clusters st').
Proof.
  intros HQ Hbody.
  apply kMeansBody_inv in Hbody as (cl & Hassign & _ & -> & _).
  apply (assignPixels_Forall Q _ _ HQ _ _ Hassign).
  apply Forall_replicate. constructor.
Qed.

Lemma kMeansBody_lookup pixels k st st' :
  kMeansBody pixels k st = Some st' →
  ∀ i, centroids st' !! i =
       match clusters st' !! i with
       | Some (p :: cluster) => Some (meanColor (p :: cluster))
       | _ => centroids st !! i
       end.
Proof.
  intros Hbody i. pose proof Hbody as Hinv.
  apply kMeansBody_inv in Hinv as (cl & Hassign & Hup & -> & _).
  rewrite (updateFrom_lookup _ _ _ _ _ Hup i).
  destruct (cl !! i) as [[|p cluster]|] eqn:Hi; try reflexivity.
  case_decide as Hk; [reflexivity|].
  apply lookup_lt_Some in Hi.
  apply assignPixels_length in Hassign. rewrite length_replicate in Hassign. lia.
Qed.

Lemma kMeansBody_range pixels k st st' :
  Forall colorInRange pixels →
  Forall colorInRange (centroids st) →
  kMeansBody pixels k st = Some st' →
  Forall colorInRange (centroids st').
Proof.
  intros Hpix Hcs Hbody.
  pose proof (kMeansBody_clusters colorInRange _ _ _ _ Hpix Hbody) as Hcl.
  apply Forall_lookup_2. intros i c Hi.
  rewrite (kMeansBody_lookup _ _ _ _ Hbody i) in Hi.
  destruct (clusters st' !! i) as [[|p cluster]|] eqn:Hc;
    try exact (Forall_lookup_1 _ _ _ _ Hcs Hi).
  injection Hi as <-. apply meanColor_range; [discriminate|].
  exact (Forall_lookup_1 _ _ _ _ Hcl Hc).
Qed.

(** C6.  With every sample in [0,255] on its three channels: the
    initial centroids are samples; a run of the body leaves each
    centroid as it was or makes it the mean of a non-empty cluster of
    samples; so a run of the body keeps all centroids in [0,255], and
    the centroids [kMeans] returns are in [0,255]. *)
Theorem centroid_range (randomSort : list RGBColor → list RGBColor)
    (Hperm : ∀ l, randomSort l ≡ₚ l)
    (pixels : list RGBColor) (k maxIterations : nat)
    (Hrange : Forall colorInRange pixels) :
  let init := kMeansInit (randomSort pixels) k in
  (∀ c, c ∈ centroids init → c ∈ pixels)
  ∧ Forall colorInRange (centroids init)
  ∧ (∀ st st' i c,
       kMeansBody (randomSort pixels) k st = Some st' →
       centroids st' !! i = Some c →
       centroids st !! i = Some c
       ∨ ∃ cluster,
           clusters st' !! i = Some cluster ∧ cluster ≠ []
           ∧ (∀ p, p ∈ cluster → p ∈ pixels)
           ∧ c = meanColor cluster)
  ∧ (∀ st st',
       Forall colorInRange (centroids st) →
       kMeansBody (randomSort pixels) k st = Some st' →
       Forall colorInRange (centroids st'))
  ∧ ∃ cs, kMeans randomSort pixels k maxIterations = Some cs
          ∧ Forall colorInRange cs.
Proof.
  intros init.
  assert (Hsorted : Forall colorInRange (randomSort pixels)).
  { now rewrite (Hperm pixels). }
  assert (Hsub : ∀ c, c ∈ centroids init → c ∈ pixels).
  { intros c Hc. simpl in Hc. apply elem_of_take in Hc as (i & Hi & _).
    rewrite <- (Hperm pixels). eapply list_elem_of_lookup_2, Hi. }
  assert (Hinit : Forall colorInRange (centroids init)).
  { simpl. now apply Forall_take. }
  split; [exact Hsub|]. split; [exact Hinit|]. split; [|split].
  - intros st st' i c Hbody Hi.
    rewrite (kMeansBody_lookup _ _ _ _ Hbody i) in Hi.
    destruct (clusters st' !! i) as [[|p cluster]|] eqn:Hc; try (now left).
    right. exists (p :: cluster). split; [reflexivity|].
    split; [discriminate|]. split; [|now injection Hi].
    assert (HQ : Forall (λ q, q ∈ pixels) (randomSort pixels)).
    { apply Forall_forall. intros q Hq. now rewrite <- (Hperm pixels). }
    pose proof (kMeansBody_clusters _ _ _ _ _ HQ Hbody) as Hcl.
    apply (Forall_forall (λ q, q ∈ pixels)).
    exact (Forall_lookup_1 _ _ _ _ Hcl Hc).
  - intros st st'. now apply kMeansBody_range.
  - destruct (kMeansLoop_trace (randomSort pixels) k maxIterations
                (λ st, runInv k st ∧ Forall colorInRange (centroids st)))
      with (st := init) as (n & st & Hloop & Hiter & _ & Htrace).
    + intros st [HI Hcs] Htest.
      destruct (runInv_step (randomSort pixels) k maxIterations st HI Htest)
        as (st' & Hbody & HI').
      exists st'. split; [exact Hbody|]. split; [exact HI'|].
      exact (kMeansBody_range _ _ _ _ Hsorted Hcs Hbody).
    + split; [apply runInv_init|exact Hinit].
    + destruct (Htrace n (le_n n)) as (stn & Hn & [_ Hcs] & _).
      rewrite Hiter in Hn. injection Hn as <-.
      exists (centroids st). unfold kMeans, kMeansRun. fold init. rewrite Hloop.
      split; [reflexivity|exact Hcs].
Qed.

(** C7.  In a run of the body, the clusters are those of the assignment
    step, one for each of the [k] indices; the centroid of a cluster
    that got no sample is after the update exactly what it was before,
    and the centroid of any other cluster is the mean of that
    cluster. *)
Theorem empty_cluster_preserved (pixels : list RGBColor) (k : nat)
    (st st' : KState) (Hbody : kMeansBody pixels k st = Some st') :
  assignPixels pixels (centroids st) (replicate k []) = Some (clusters st')
  ∧ length (clusters st') = k
  ∧ ∀ i,
      (clusters st' !! i = Some [] → centroids st' !! i = centroids st !! i)
      ∧ (∀ p cluster,
           clusters st' !! i = Some (p :: cluster) →
           centroids st' !! i = Some (meanColor (p :: cluster))).
Proof.
  pose proof Hbody as Hinv.
  apply kMeansBody_inv in Hinv as (cl & Hassign & _ & Hcl & _). subst cl.
  split; [exact Hassign|]. split.
  - apply assignPixels_length in Hassign. now rewrite length_replicate in Hassign.
  - intros i. rewrite (kMeansBody_lookup _ _ _ _ Hbody i). split.
    + now intros ->.
    + now intros p cluster ->.
Qed.

(** ** The centroids that come back *)

Lemma kMeans_returns (randomSort : list RGBColor → list RGBColor)
    (pixels : list RGBColor) (k maxIterations : nat) :
  ∃ cs, kMeans randomSort pixels k maxIterations = Some cs
        ∧ length cs = length (take k (randomSort pixels)).
Proof.
  set (init := kMeansInit (randomSort pixels) k).
  destruct (kMeansLoop_trace (randomSort pixels) k maxIterations
              (λ st, runInv k st
                     ∧ length (centroids st) = length (centroids init)))
    with (st := init) as (n & st & Hloop & Hiter & _ & Htrace).
  - intros st [HI Hlen] Htest.
    destruct (runInv_step_full (randomSort pixels) k maxIterations st HI Htest)
      as (st' & Hbody & HI' & Hlen' & _).
    exists st'. split; [exact Hbody|]. split; [exact HI'|]. congruence.
  - split; [apply runInv_init|reflexivity].
  - destruct (Htrace n (le_n n)) as (stn & Hn & [_ Hlen] & _).
    rewrite Hiter in Hn. injection Hn as <-.
    exists (centroids st). unfold kMeans, kMeansRun. fold init. rewrite Hloop.
    split; [reflexivity|exact Hlen].
Qed.

(** C10.  With a count of zero and at least one sample, the branch for
    few samples is not taken; in [kMeans] there are no centroids and no
    previous centroids, the test for convergence succeeds before any
    run of the body, the loop ends where it starts with no iteration
    made, and the palette is empty, with no error. *)
Theorem extract_zero_count (randomSort : list RGBColor → list RGBColor)
    (data : list Z) (Hsample : samplePixels data ≠ []) :
  let pixels := samplePixels data in
  let init := kMeansInit (randomSort pixels) 0 in
  (length pixels <=? 0)%nat = false
  ∧ centroids init = []
  ∧ hasConverged init = true
  ∧ kMeansRun randomSort pixels 0 100 = Some init
  ∧ iterations init = 0%nat
  ∧ kMeans randomSort pixels 0 100 = Some []
  ∧ extractColors randomSort data 0 = Some [].
Proof.
  intros pixels init.
  assert (Hbranch : (length pixels <=? 0)%nat = false).
  { apply Nat.leb_gt. unfold pixels. destruct (samplePixels data); [congruence|].
    simpl. lia. }
  assert (Hrun : kMeansRun randomSort pixels 0 100 = Some init).
  { unfold kMeansRun. fold init. rewrite kMeansLoop_eq. reflexivity. }
  assert (Hk : kMeans randomSort pixels 0 100 = Some []).
  { unfold kMeans. rewrite Hrun. reflexivity. }
  repeat split; try assumption; try reflexivity.
  unfold extractColors. fold pixels. rewrite Hbranch, Hk. reflexivity.
Qed.

(** C9 (as the code has it).  The samples are put in the order
    [randomSort] leaves them in, a permutation of theirs, and the first
    [k] of them are the initial centroids; with distinct samples, more
    than [k] of them, these are [k] samples, distinct from one
    another. *)
Theorem initial_centroids (randomSort : list RGBColor → list RGBColor)
    (Hperm : ∀ l, randomSort l ≡ₚ l)
    (pixels : list RGBColor) (k maxIterations : nat)
    (Hdup : NoDup pixels) (Hlen : (k < length pixels)%nat) :
  let sorted := randomSort pixels in
  let init := kMeansInit sorted k in
  kMeansRun randomSort pixels k maxIterations
  = kMeansLoop sorted k maxIterations init
  ∧ sorted ≡ₚ pixels
  ∧ centroids init = take k sorted
  ∧ length (centroids init) = k
  ∧ NoDup (centroids init)
  ∧ ∀ c, c ∈ centroids init → c ∈ pixels.
Proof.
  intros sorted init.
  split; [reflexivity|]. split; [apply Hperm|]. split; [reflexivity|].
  split; [|split].
  - simpl. rewrite length_take. unfold sorted.
    rewrite (Permutation_length (Hperm pixels)). lia.
  - simpl. apply (sublist_NoDup _ sorted); [|apply sublist_take].
    unfold sorted. now rewrite (Hperm pixels).
  - intros c Hc. simpl in Hc. apply elem_of_take in Hc as (i & Hi & _).
    rewrite <- (Hperm pixels). eapply list_elem_of_lookup_2, Hi.
Qed.

(** C1.  For a buffer of RGBA bytes and a count [k >= 1]: with at most
    [k] distinct opaque samples the palette is the hex colour of each
    of them in the order of first occurrence, whatever the sort would
    do, so it is as long as they are many (not at all for a buffer
    without an opaque pixel); with more than [k] the palette is the hex
    colour of each of the centroids [kMeans] returns, and these are
    [k]. *)
Theorem palette_size_law (randomSort : list RGBColor → list RGBColor)
    (Hperm : ∀ l, randomSort l ≡ₚ l)
    (data : list Z) (k : nat)
    (Hwf : rgbaBuffer data) (Hk : (1 ≤ k)%nat) :
  let samples := map tripleColor (distinctOpaque data) in
  samplePixels data = samples
  ∧ ((length (distinctOpaque data) ≤ k)%nat →
       ∀ anySort,
         extractColors anySort data k = Some (map rgbToHex samples)
         ∧ length (map rgbToHex samples) = length (distinctOpaque data))
  ∧ ((k < length (distinctOpaque data))%nat →
       ∃ cs,
         kMeans randomSort samples k 100 = Some cs
         ∧ length cs = k
         ∧ extractColors randomSort data k = Some (map rgbToHex cs)
         ∧ length (map rgbToHex cs) = k).
Proof.
  intros samples. destruct Hwf as [Hbytes _].
  pose proof (samplePixels_distinctOpaque data Hbytes) as Hspec.
  fold samples in Hspec.
  assert (Hlen : length samples = length (distinctOpaque data)).
  { unfold samples. apply length_map. }
  split; [exact Hspec|]. split.
  - intros Hle anySort. unfold extractColors. rewrite Hspec.
    assert (Hb : (length samples <=? k)%nat = true) by (apply Nat.leb_le; lia).
    rewrite Hb. split; [reflexivity|]. now rewrite length_map.
  - intros Hgt.
    destruct (kMeans_returns randomSort samples k 100) as (cs & Hcs & Hl).
    exists cs. split; [exact Hcs|].
    assert (Hk' : length cs = k).
    { rewrite Hl, length_take, (Permutation_length (Hperm samples)). lia. }
    split; [exact Hk'|]. split; [|now rewrite length_map].
    unfold extractColors. rewrite Hspec.
    assert (Hb : (length samples <=? k)%nat = false) by (apply Nat.leb_gt; lia).
    rewrite Hb, Hcs. reflexivity.
Qed.

(** ** The random sort is not a fair shuffle *)

Lemma pow2_pos e : (0 < pow2 e)%Q.
Proof.
  unfold pow2. change 0%Q with (inject_Z 0). rewrite <- Zlt_Qlt.
  apply Z.pow_pos_nonneg; lia.
Qed.

Lemma pow2_add e1 e2 : (pow2 (e1 + e2) == pow2 e1 * pow2 e2)%Q.
Proof.
  unfold pow2. rewrite <- inject_Z_mult, Nat2Z.inj_add, Z.pow_add_r by lia.
  reflexivity.
Qed.

Lemma pow2_S e : (pow2 (S e) == 2 * pow2 e)%Q.
Proof.
  unfold pow2. rewrite Nat2Z.inj_succ, Z.pow_succ_r by lia.
  rewrite inject_Z_mult. reflexivity.
Qed.

Lemma comparator_sign bits j :
  (1 ≤ bits)%nat →
  let half := 2 ^ (Z.of_nat bits - 1) in
  ((0 < comparator bits j)%Q ↔ j < half)
  ∧ ((comparator bits j == 0)%Q ↔ j = half)
  ∧ ((comparator bits j < 0)%Q ↔ half < j).
Proof.
  intros Hbits half.
  destruct bits as [|e]; [lia|].
  assert (Hhalf : half = 2 ^ Z.of_nat e) by (unfold half; f_equal; lia).
  pose proof (pow2_pos e) as Hpos.
  pose proof (pow2_S e) as HS.
  assert (Hy : (inject_Z j / pow2 (S e) * (2 * pow2 e) == inject_Z j)%Q).
  { rewrite <- HS. field. pose proof (pow2_pos (S e)). lra. }
  unfold comparator.
  rewrite Hhalf, Zlt_Qlt, Zlt_Qlt, <- inject_Z_injective. fold (pow2 e).
  set (y := (inject_Z j / pow2 (S e))%Q) in *.
  set (h := pow2 e) in *. set (x := inject_Z j) in *.
  repeat split; intros H; nra.
Qed.

(** For at least one random bit the three chances are those of the
    signs of the comparator, and add up to one. *)
Lemma chance_of_signs bits :
  (1 ≤ bits)%nat →
  (chanceNegative bits + chanceZero bits + chancePositive bits == 1)%Q.
Proof.
  intros Hbits. destruct bits as [|e]; [lia|].
  unfold chanceNegative, chanceZero, chancePositive.
  replace (Z.of_nat (S e) - 1) with (Z.of_nat e) by lia.
  assert (Hm : (inject_Z (2 ^ Z.of_nat e - 1) == pow2 e - 1)%Q).
  { unfold pow2, Qminus. now rewrite <- (inject_Z_plus _ (-1)). }
  pose proof (pow2_pos e) as Hpos.
  fold (pow2 e). rewrite Hm, (pow2_S e).
  set (h := pow2 e) in *. field. lra.
Qed.

Lemma dyadic_proper q q' : (q == q')%Q → dyadic q → dyadic q'.
Proof. intros Heq (m & e & H). exists m, e. now rewrite <- Heq. Qed.

Lemma dyadic_inject m : dyadic (inject_Z m).
Proof. exists m, 0%nat. change (pow2 0) with 1%Q. ring. Qed.

Lemma dyadic_div m e : dyadic (inject_Z m / pow2 e).
Proof.
  exists m, e. field. pose proof (pow2_pos e). lra.
Qed.

Lemma dyadic_plus q1 q2 : dyadic q1 → dyadic q2 → dyadic (q1 + q2).
Proof.
  intros (m1 & e1 & H1) (m2 & e2 & H2).
  exists (m1 * 2 ^ Z.of_nat e2 + m2 * 2 ^ Z.of_nat e1), (e1 + e2)%nat.
  rewrite pow2_add, inject_Z_plus, !inject_Z_mult, <- H1, <- H2.
  fold (pow2 e1) (pow2 e2). ring.
Qed.

Lemma dyadic_mult q1 q2 : dyadic q1 → dyadic q2 → dyadic (q1 * q2).
Proof.
  intros (m1 & e1 & H1) (m2 & e2 & H2).
  exists (m1 * m2), (e1 + e2)%nat.
  rewrite pow2_add, inject_Z_mult, <- H1, <- H2. ring.
Qed.

Lemma chance_dyadic bits run order : dyadic (chance bits run order).
Proof.
  induction run as [o|n IHn z IHz p IHp]; simpl.
  - case_decide; [apply (dyadic_inject 1)|apply (dyadic_inject 0)].
  - repeat apply dyadic_plus; apply dyadic_mult; try assumption.
    + apply dyadic_div.
    + apply (dyadic_div 1).
    + apply dyadic_div.
Qed.

Lemma pow2_mod3 (e : nat) : 2 ^ Z.of_nat e mod 3 ≠ 0.
Proof.
  induction e as [|e IH]; [discriminate|].
  rewrite Nat2Z.inj_succ, Z.pow_succ_r by lia.
  intros H. apply IH. 
  pose proof (Z.mod_pos_bound (2 ^ Z.of_nat e) 3 ltac:(lia)).
  rewrite Z.mul_mod in H by lia.
  assert (2 ^ Z.of_nat e mod 3 = 1 ∨ 2 ^ Z.of_nat e mod 3 = 2 ∨ 2 ^ Z.of_nat e mod 3 = 0) as [E|[E|E]] by lia;
   rewrite E in H; try discriminate H; exact E.
Qed.

Lemma sixth_not_dyadic : ¬ dyadic (1 # 6).
Proof.
  intros (m & e & H). unfold pow2, Qeq in H. simpl in H.
  apply (pow2_mod3 e).
  assert (E : 2 ^ Z.of_nat e = 3 * (2 * m)) by lia.
  rewrite E, Z.mul_comm. apply Z.mod_mul. lia.
Qed.

(** C9, against the claim.  For three samples no sort of the runtime,
    however it calls the comparator, leaves each of the six orders with
    the same chance: every chance is a multiple of a power of one
    half, and a sixth is not. *)
Lemma random_sort_not_uniform :
  ¬ ∃ (bits : nat) (run : sortRun),
      ∀ order, order ≡ₚ [0; 1; 2]%nat → (chance bits run order == 1 # 6)%Q.
Proof.
  intros (bits & run & H). apply sixth_not_dyadic.
  apply (dyadic_proper _ _ (H [0; 1; 2]%nat (reflexivity _))).
  apply chance_dyadic.
Qed.

(** ** The theorems at concrete inputs *)

(** Two opaque colours and a count of six: both colours, in the order
    of their first occurrence. *)
Example extractColors_two_colours :
  extractColors reverse [10; 10; 10; 255;  20; 20; 20; 255;  10; 10; 10; 255] 6
  = Some ["#0A0A0A"; "#141414"].
Proof. vm_compute. reflexivity. Qed.

(** Five opaque colours and a count of two.  Left in their order, the
    first two samples are the initial centroids, and the centroids end
    as the means of the three dark and of the two light colours;
    reversed, the lightest colour stays alone. *)
Example extractColors_clustered :
  extractColors id sampleBuffer 2 = Some ["#040506"; "#969696"]
  ∧ extractColors reverse sampleBuffer 2 = Some ["#C8C8C8"; "#1C1D1E"].
Proof. vm_compute. split; reflexivity. Qed.

(** Only transparent pixels: no colour. *)
Example extractColors_transparent :
  extractColors reverse [10; 10; 10; 0;  20; 20; 20; 254] 6 = Some [].
Proof. vm_compute. reflexivity. Qed.

Lemma sampleBuffer_rgba : rgbaBuffer sampleBuffer.
Proof.
  split; [|reflexivity]. unfold sampleBuffer.
  repeat (constructor; [unfold isByte; lia|]). constructor.
Defined.

Lemma samplePalette_range : Forall colorInRange samplePalette.
Proof.
  unfold samplePalette.
  repeat (constructor;
          [unfold colorInRange, inByteRange, Qle; simpl; lia|]).
  constructor.
Defined.

Lemma samplePalette_NoDup : NoDup samplePalette.
Proof.
  unfold samplePalette.
  repeat (apply NoDup_cons_2;
          [intros H;
           repeat (apply elem_of_cons in H as [H|H]; [discriminate H|]);
           now apply elem_of_nil in H|]).
  apply NoDup_nil_2.
Defined.

Lemma palette_size_law_witness :
  rgbaBuffer sampleBuffer ∧ (1 ≤ 2)%nat
  ∧ ∃ cs,
      kMeans reverse (map tripleColor (distinctOpaque sampleBuffer)) 2 100 = Some cs
      ∧ length cs = 2%nat
      ∧ extractColors reverse sampleBuffer 2 = Some (map rgbToHex cs).
Proof.
  split; [exact sampleBuffer_rgba|]. split; [lia|].
  destruct (palette_size_law reverse reverse_Permutation sampleBuffer 2
              sampleBuffer_rgba ltac:(lia)) as (_ & _ & H).
  destruct H as (cs & H1 & H2 & H3 & _); [vm_compute; lia|].
  exists cs. auto.
Defined.

Lemma sampler_postcondition_witness :
  rgbaBuffer sampleBuffer ∧ samplePixels sampleBuffer = samplePalette.
Proof.
  split; [exact sampleBuffer_rgba|].
  destruct (sampler_postcondition sampleBuffer sampleBuffer_rgba) as (H & _).
  rewrite H. vm_compute. reflexivity.
Defined.

Lemma convergence_test_witness :
  samplePalette ≠ [] ∧ (1 ≤ 2)%nat ∧ (2 < length samplePalette)%nat
  ∧ (1 ≤ 100)%nat
  ∧ hasConverged (kMeansInit (reverse samplePalette) 2) = false.
Proof.
  assert (H1 : samplePalette ≠ []) by discriminate.
  assert (H2 : (1 ≤ 2)%nat) by lia.
  assert (H3 : (2 < length samplePalette)%nat) by (simpl; lia).
  assert (H4 : (1 ≤ 100)%nat) by lia.
  split; [exact H1|]. split; [exact H2|]. split; [exact H3|].
  split; [exact H4|].
  destruct (convergence_test reverse reverse_Permutation samplePalette 2 100
              H1 H2 H3 H4) as (_ & _ & H & _).
  exact H.
Defined.

Lemma centroid_range_witness :
  Forall colorInRange samplePalette
  ∧ ∃ cs, kMeans reverse samplePalette 2 100 = Some cs ∧ Forall colorInRange cs.
Proof.
  split; [exact samplePalette_range|].
  destruct (centroid_range reverse reverse_Permutation samplePalette 2 100
              samplePalette_range) as (_ & _ & _ & _ & H).
  exact H.
Defined.

Lemma empty_cluster_preserved_witness :
  ∃ st',
    kMeansBody samplePalette 2 twinState = Some st'
    ∧ clusters st' !! 1%nat = Some []
    ∧ centroids st' !! 1%nat = Some (mkRGB 4 5 6).
Proof.
  destruct (kMeansBody samplePalette 2 twinState) as [st'|] eqn:Hbody;
    [|vm_compute in Hbody; discriminate Hbody].
  exists st'. split; [reflexivity|].
  destruct (empty_cluster_preserved samplePalette 2 twinState st' Hbody)
    as (_ & _ & H).
  assert (Hcl : clusters st' !! 1%nat = Some []).
  { vm_compute in Hbody. injection Hbody as <-. reflexivity. }
  split; [exact Hcl|].
  rewrite (proj1 (H 1%nat) Hcl). reflexivity.
Defined.

Lemma initial_centroids_witness :
  NoDup samplePalette ∧ (2 < length samplePalette)%nat
  ∧ NoDup (centroids (kMeansInit (reverse samplePalette) 2)).
Proof.
  assert (H : (2 < length samplePalette)%nat) by (simpl; lia).
  split; [exact samplePalette_NoDup|]. split; [exact H|].
  destruct (initial_centroids reverse reverse_Permutation samplePalette 2 100
              samplePalette_NoDup H) as (_ & _ & _ & _ & Hd & _).
  exact Hd.
Defined.

Lemma extract_zero_count_witness :
  samplePixels sampleBuffer ≠ [] ∧ extractColors reverse sampleBuffer 0 = Some [].
Proof.
  assert (H : samplePixels sampleBuffer ≠ []) by (vm_compute; discriminate).
  split; [exact H|].
  destruct (extract_zero_count reverse sampleBuffer H) as (_ & _ & _ & _ & _ & _ & E).
  exact E.
Defined.

(* ===================================================================== *)
(** * Further properties *)

(** ** The resize *)









(** ** The assignment step *)










(** ** What the pipeline hands out *)

Lemma Math_round_inject_Z n : Math_round (inject_Z n) = n.
Proof.
  unfold Math_round, Qfloor, Qplus, inject_Z. simpl.
  change (Z.pos (1 * 2)) with 2. change (1 * 1) with 1.
  symmetry. apply (Z.div_unique _ _ _ 1); lia.
Qed.

Lemma byteColor_range rr gg bb :
  isByte rr → isByte gg → isByte bb → colorInRange (byteColor rr gg bb).
Proof.
  unfold isByte, colorInRange, inByteRange, byteColor. simpl.
  intros Hr Hg Hb.
  change 0%Q with (inject_Z 0). change 255%Q with (inject_Z 255).
  rewrite <- !Zle_Qle. lia.
Qed.

Lemma bufferPixels_bytes data :
  Forall isByte data →
  ∀ rr gg bb a, (rr, gg, bb, a) ∈ bufferPixels data →
                isByte rr ∧ isByte gg ∧ isByte bb.
Proof.
  induction data as [l Hl|r0 g0 b0 a0 rest IH] using rgba_ind; intros Hbytes.
  - destruct l as [|? [|? [|? [|? ?]]]]; simpl in *; try lia;
      intros rr gg bb a H; now apply elem_of_nil in H.
  - rewrite !Forall_cons in Hbytes. destruct Hbytes as (Hr & Hg & Hb & _ & Hrest).
    intros rr gg bb a H. cbn [bufferPixels] in H.
    apply elem_of_cons in H as [[= -> -> -> ->]|H];
      [exact (conj Hr (conj Hg Hb))|].
    now apply (IH Hrest rr gg bb a).
Qed.

Lemma distinctOpaque_bytes data :
  Forall isByte data →
  ∀ t, t ∈ distinctOpaque data →
       isByte (fst (fst t)) ∧ isByte (snd (fst t)) ∧ isByte (snd t).
Proof.
  intros Hbytes [[rr gg] bb] Ht. simpl.
  apply elem_of_firstOccurrences, elem_of_opaqueTriples in Ht.
  exact (bufferPixels_bytes data Hbytes rr gg bb 255 Ht).
Qed.

Lemma samplePixels_range data :
  Forall isByte data → Forall colorInRange (samplePixels data).
Proof.
  intros Hbytes. rewrite (samplePixels_distinctOpaque data Hbytes).
  apply Forall_forall. intros c Hc.
  apply list_elem_of_In, in_map_iff in Hc as (t & <- & Ht).
  apply list_elem_of_In, (distinctOpaque_bytes data Hbytes) in Ht
    as (Hr & Hg & Hb).
  now apply byteColor_range.
Qed.

Lemma kMeans_in_range (randomSort : list RGBColor → list RGBColor)
    pixels k maxIterations :
  (∀ l, randomSort l ≡ₚ l) → Forall colorInRange pixels →
  ∃ cs, kMeans randomSort pixels k maxIterations = Some cs
        ∧ length cs = (k `min` length pixels)%nat
        ∧ Forall colorInRange cs.
Proof.
  intros Hperm Hrange.
  set (init := kMeansInit (randomSort pixels) k).
  assert (Hsorted : Forall colorInRange (randomSort pixels))
    by now rewrite (Hperm pixels).
  destruct (kMeansLoop_trace (randomSort pixels) k maxIterations
              (λ st, runInv k st
                     ∧ length (centroids st) = length (centroids init)
                     ∧ Forall colorInRange (centroids st)))
    with (st := init) as (n & st & Hloop & Hiter & _ & Htrace).
  - intros st (HI & Hlen & Hcs) Htest.
    destruct (runInv_step_full (randomSort pixels) k maxIterations st HI Htest)
      as (st' & Hbody & HI' & Hlen' & _).
    exists st'. split; [exact Hbody|]. split; [exact HI'|].
    split; [congruence|].
    exact (kMeansBody_range _ _ _ _ Hsorted Hcs Hbody).
  - split; [apply runInv_init|]. split; [reflexivity|].
    simpl. now apply Forall_take.
  - destruct (Htrace n (le_n n)) as (stn & Hn & (_ & Hlen & Hcs) & _).
    rewrite Hiter in Hn. injection Hn as <-.
    exists (centroids st). unfold kMeans, kMeansRun. fold init. rewrite Hloop.
    split; [reflexivity|]. split; [|exact Hcs].
    rewrite Hlen. simpl.
    now rewrite length_take, (Permutation_length (Hperm pixels)).
Qed.

Lemma isHexColor_hexOfBytes rr gg bb :
  0 <= rr <= 255 → 0 <= gg <= 255 → 0 <= bb <= 255 →
  isHexColor (hexOfBytes rr gg bb) = true.
Proof.
  assert (Hd : ∀ n, 0 <= n <= 255 →
            isUpperHexDigit (upperHexDigit (n / 16))
            && isUpperHexDigit (upperHexDigit (n mod 16)) = true).
  { apply byte_forall. vm_compute. reflexivity. }
  intros Hr Hg Hb.
  apply Hd in Hr, Hg, Hb.
  apply andb_true_iff in Hr as [Hr1 Hr2], Hg as [Hg1 Hg2], Hb as [Hb1 Hb2].
  unfold hexOfBytes, twoHexDigits, isHexColor. simpl.
  now rewrite Hr1, Hr2, Hg1, Hg2, Hb1, Hb2.
Qed.

Lemma isHexColor_rgbToHex c : colorInRange c → isHexColor (rgbToHex c) = true.
Proof.
  intros Hc. rewrite (rgbToHex_hexOfBytes c Hc). destruct Hc as (Hr & Hg & Hb).
  apply isHexColor_hexOfBytes; now apply Math_round_range.
Qed.

(** X5.  On a buffer of RGBA bytes, for every count (zero too) and
    whatever permutation the sort makes, [extractColors] ends without
    an error; the palette has as many colours as the count or as there
    are distinct opaque colours, whichever is less; and each is a [#]
    with six upper-case hex digits. *)
Theorem extractColors_palette (randomSort : list RGBColor → list RGBColor)
    (Hperm : ∀ l, randomSort l ≡ₚ l)
    (data : list Z) (colorCount : nat) (Hwf : rgbaBuffer data) :
  ∃ palette,
    extractColors randomSort data colorCount = Some palette
    ∧ length palette = (colorCount `min` length (distinctOpaque data))%nat
    ∧ Forall (λ hex, isHexColor hex = true) palette.
Proof.
  destruct Hwf as [Hbytes _].
  pose proof (samplePixels_range data Hbytes) as Hrange.
  pose proof (samplePixels_distinctOpaque data Hbytes) as Hspec.
  assert (Hlen : length (samplePixels data) = length (distinctOpaque data))
    by (rewrite Hspec; apply length_map).
  assert (Hhex : ∀ cs, Forall colorInRange cs →
            Forall (λ hex, isHexColor hex = true) (map rgbToHex cs)).
  { intros cs Hcs. apply Forall_forall. intros hex Hin.
    apply list_elem_of_In, in_map_iff in Hin as (c & <- & Hc).
    apply isHexColor_rgbToHex.
    apply list_elem_of_In in Hc. exact (proj1 (Forall_forall _ _) Hcs c Hc). }
  unfold extractColors.
  destruct (length (samplePixels data) <=? colorCount)%nat eqn:Hb.
  - apply Nat.leb_le in Hb. eexists. split; [reflexivity|].
    split; [rewrite length_map; lia|now apply Hhex].
  - apply Nat.leb_gt in Hb.
    destruct (kMeans_in_range randomSort (samplePixels data) colorCount 100
                Hperm Hrange) as (cs & Hcs & Hl & Hr).
    rewrite Hcs. simpl. eexists. split; [reflexivity|].
    split; [rewrite length_map; lia|now apply Hhex].
Qed.

Lemma extractColors_palette_witness :
  rgbaBuffer sampleBuffer
  ∧ ∃ palette,
      extractColors reverse sampleBuffer 3 = Some palette
      ∧ length palette = (3 `min` length (distinctOpaque sampleBuffer))%nat
      ∧ Forall (λ hex, isHexColor hex = true) palette.
Proof.
  split; [exact sampleBuffer_rgba|].
  exact (extractColors_palette reverse reverse_Permutation sampleBuffer 3
           sampleBuffer_rgba).
Defined.

(** X6.  Two colours with channels in [0,255] get the same hex string
    exactly when their channels round to the same integers. *)
Theorem rgbToHex_same (c1 c2 : RGBColor)
    (H1 : colorInRange c1) (H2 : colorInRange c2) :
  rgbToHex c1 = rgbToHex c2
  ↔ Math_round (r c1) = Math_round (r c2)
    ∧ Math_round (g c1) = Math_round (g c2)
    ∧ Math_round (b c1) = Math_round (b c2).
Proof.
  rewrite (rgbToHex_hexOfBytes c1 H1), (rgbToHex_hexOfBytes c2 H2).
  destruct H1 as (Hr1 & Hg1 & Hb1), H2 as (Hr2 & Hg2 & Hb2).
  apply Math_round_range in Hr1, Hg1, Hb1, Hr2, Hg2, Hb2.
  split.
  - intros Heq. apply (f_equal parseHex) in Heq.
    rewrite !parseHex_hexOfBytes in Heq by assumption.
    injection Heq as -> -> ->. now repeat split.
  - intros (-> & -> & ->). reflexivity.
Qed.

Lemma rgbToHex_same_witness :
  colorInRange (mkRGB (19 # 2) 0 255) ∧ colorInRange (mkRGB 10 (1 # 3) (1019 # 4))
  ∧ rgbToHex (mkRGB (19 # 2) 0 255) = rgbToHex (mkRGB 10 (1 # 3) (1019 # 4)).
Proof.
  assert (H1 : colorInRange (mkRGB (19 # 2) 0 255)).
  { unfold colorInRange, inByteRange; simpl. repeat split; lra. }
  assert (H2 : colorInRange (mkRGB 10 (1 # 3) (1019 # 4))).
  { unfold colorInRange, inByteRange; simpl. repeat split; lra. }
  split; [exact H1|]. split; [exact H2|].
  apply (rgbToHex_same _ _ H1 H2). vm_compute. repeat split.
Defined.

(** X7.  With no more distinct opaque colours than the count, no hex
    string comes twice in the palette. *)
Theorem extractColors_small_NoDup (randomSort : list RGBColor → list RGBColor)
    (data : list Z) (colorCount : nat) (Hwf : rgbaBuffer data)
    (Hfew : (length (distinctOpaque data) ≤ colorCount)%nat) :
  ∃ palette,
    extractColors randomSort data colorCount = Some palette ∧ NoDup palette.
Proof.
  destruct Hwf as [Hbytes _].
  pose proof (samplePixels_distinctOpaque data Hbytes) as Hspec.
  unfold extractColors. rewrite Hspec, length_map.
  apply Nat.leb_le in Hfew. rewrite Hfew.
  eexists. split; [reflexivity|].
  change (NoDup (rgbToHex <$> (tripleColor <$> distinctOpaque data))).
  rewrite <- list_fmap_compose.
  apply NoDup_fmap_2_strong; [|apply NoDup_firstOccurrences].
  intros [[r1 g1] b1] [[r2 g2] b2] Ht1 Ht2 Heq.
  apply (distinctOpaque_bytes data Hbytes) in Ht1 as (Hr1 & Hg1 & Hb1).
  apply (distinctOpaque_bytes data Hbytes) in Ht2 as (Hr2 & Hg2 & Hb2).
  simpl in *. unfold compose, tripleColor in Heq. simpl in Heq.
  rewrite !rgbToHex_hexOfBytes in Heq by now apply byteColor_range.
  unfold byteColor in Heq. simpl in Heq.
  rewrite !Math_round_inject_Z in Heq.
  apply (f_equal parseHex) in Heq.
  rewrite !parseHex_hexOfBytes in Heq by assumption.
  now injection Heq as -> -> ->.
Qed.

Lemma extractColors_small_NoDup_witness :
  rgbaBuffer sampleBuffer
  ∧ (length (distinctOpaque sampleBuffer) ≤ 6)%nat
  ∧ ∃ palette, extractColors id sampleBuffer 6 = Some palette ∧ NoDup palette.
Proof.
  assert (H : (length (distinctOpaque sampleBuffer) ≤ 6)%nat) by (vm_compute; lia).
  split; [exact sampleBuffer_rgba|]. split; [exact H|].
  exact (extractColors_small_NoDup id sampleBuffer 6 sampleBuffer_rgba H).
Defined.

(** ** One colour asked for *)

Lemma assignPixels_single c : ∀ pixels acc,
  assignPixels pixels [c] [acc] = Some [acc ++ pixels].
Proof.
  induction pixels as [|pixel pixels IH]; intros acc; simpl.
  - now rewrite app_nil_r.
  - rewrite IH. now rewrite <- app_assoc.
Qed.

Lemma kMeansBody_single pixels c st :
  pixels ≠ [] → centroids st = [c] →
  kMeansBody pixels 1 st
  = Some {| centroids := [meanColor pixels];
            clusters := [pixels];
            previousCentroids := [c];
            iterations := S (iterations st) |}.
Proof.
  intros Hne Hc. unfold kMeansBody. rewrite Hc.
  change (replicate 1 []) with [@nil RGBColor].
  rewrite assignPixels_single. simpl.
  destruct pixels as [|p ps]; [congruence|]. reflexivity.
Qed.

Lemma kMeans_single (randomSort : list RGBColor → list RGBColor)
    pixels maxIterations :
  randomSort pixels ≠ [] → (1 ≤ maxIterations)%nat →
  kMeans randomSort pixels 1 maxIterations
  = Some [meanColor (randomSort pixels)].
Proof.
  intros Hne Hmax.
  set (sorted := randomSort pixels) in *.
  set (init := kMeansInit sorted 1).
  destruct sorted as [|p ps] eqn:Hs; [congruence|].
  assert (Hinit : hasConverged init = false).
  { destruct (hasConverged init) eqn:E; [|reflexivity].
    apply hasConverged_true, Forall2_length in E. discriminate E. }
  destruct (kMeansLoop_trace (p :: ps) 1 maxIterations
              (λ st, ∃ c, centroids st = [c]
                          ∧ ((1 ≤ iterations st)%nat → c = meanColor (p :: ps))))
    with (st := init) as (n & st & Hloop & Hiter & Hend & Htrace).
  - intros st (c & Hc & _) _. eexists.
    split; [apply (kMeansBody_single _ c); [discriminate|exact Hc]|].
    simpl. eauto.
  - exists p. split; [reflexivity|]. simpl. lia.
  - destruct (Htrace n (le_n n)) as (stn & Hn & (c & Hc & Hmean) & _).
    rewrite Hiter in Hn. injection Hn as <-.
    assert (Hran : (1 ≤ iterations st)%nat).
    { destruct n as [|n'].
      - injection Hiter as <-. exfalso.
        unfold loopTest in Hend. rewrite Hinit in Hend. simpl in Hend.
        rewrite andb_true_r in Hend. apply Nat.ltb_ge in Hend. lia.
      - apply kMeansIter_iterations in Hiter. lia. }
    unfold kMeans, kMeansRun. fold sorted. rewrite Hs. fold init. rewrite Hloop.
    simpl. rewrite Hc. do 2 f_equal. now apply Hmean.
Qed.

Lemma sumQ_Permutation l l' : l ≡ₚ l' → (sumQ l == sumQ l')%Q.
Proof.
  induction 1 as [|x l l' _ IH|x y l|l1 l2 l3 _ IH1 _ IH2]; simpl.
  - reflexivity.
  - now rewrite IH.
  - ring.
  - now rewrite IH1.
Qed.

Lemma fold_addColor_sum l : ∀ acc,
  (r (fold_left addColor l acc) == r acc + sumQ (map r l)
   /\ g (fold_left addColor l acc) == g acc + sumQ (map g l)
   /\ b (fold_left addColor l acc) == b acc + sumQ (map b l))%Q.
Proof.
  induction l as [|x l IH]; intros acc; simpl.
  - repeat split; ring.
  - destruct (IH (addColor acc x)) as (Hr & Hg & Hb).
    rewrite Hr, Hg, Hb. simpl. repeat split; ring.
Qed.

Lemma meanColor_Permutation l l' :
  l ≡ₚ l' → sameColor (meanColor l) (meanColor l').
Proof.
  intros Hp. unfold sameColor, meanColor, sumColors. simpl.
  destruct (fold_addColor_sum l {| r := 0; g := 0; b := 0 |}%Q) as (Hr & Hg & Hb).
  destruct (fold_addColor_sum l' {| r := 0; g := 0; b := 0 |}%Q)
    as (Hr' & Hg' & Hb').
  rewrite Hr, Hg, Hb, Hr', Hg', Hb', (Permutation_length Hp).
  rewrite (sumQ_Permutation _ _ (Permutation_map r Hp)).
  rewrite (sumQ_Permutation _ _ (Permutation_map g Hp)).
  rewrite (sumQ_Permutation _ _ (Permutation_map b Hp)).
  repeat split; reflexivity.
Qed.

Lemma Math_round_comp x y : (x == y)%Q → Math_round x = Math_round y.
Proof. intros H. unfold Math_round. apply Qfloor_comp. now rewrite H. Qed.

Lemma rgbToHex_sameColor c1 c2 : sameColor c1 c2 → rgbToHex c1 = rgbToHex c2.
Proof.
  intros (Hr & Hg & Hb). unfold rgbToHex, toHex.
  now rewrite (Math_round_comp _ _ Hr), (Math_round_comp _ _ Hg),
    (Math_round_comp _ _ Hb).
Qed.

(** X8.  Asked for one colour of a buffer of RGBA bytes with two or
    more distinct opaque colours, [extractColors] gives the hex string
    of their mean, channel by channel, whatever permutation the sort
    makes: the one centroid is the mean of the samples in the order the
    sort left them in, which is the mean of the samples as a number. *)
Theorem extractColors_one_color (randomSort : list RGBColor → list RGBColor)
    (Hperm : ∀ l, randomSort l ≡ₚ l)
    (data : list Z) (Hwf : rgbaBuffer data)
    (Hmany : (2 ≤ length (distinctOpaque data))%nat) :
  let samples := samplePixels data in
  kMeans randomSort samples 1 100 = Some [meanColor (randomSort samples)]
  ∧ sameColor (meanColor (randomSort samples)) (meanColor samples)
  ∧ extractColors randomSort data 1 = Some [rgbToHex (meanColor samples)].
Proof.
  intros samples. destruct Hwf as [Hbytes _].
  assert (Hlen : length samples = length (distinctOpaque data)).
  { unfold samples. rewrite (samplePixels_distinctOpaque data Hbytes).
    apply length_map. }
  assert (Hne : randomSort samples ≠ []).
  { intros Hnil. pose proof (Permutation_length (Hperm samples)) as Hl.
    rewrite Hnil in Hl. simpl in Hl. lia. }
  pose proof (kMeans_single randomSort samples 100 Hne ltac:(lia)) as Hk.
  pose proof (meanColor_Permutation _ _ (Hperm samples)) as Hsame.
  split; [exact Hk|]. split; [exact Hsame|].
  unfold extractColors. fold samples.
  assert (Hb : (length samples <=? 1)%nat = false) by (apply Nat.leb_gt; lia).
  rewrite Hb, Hk. simpl. do 2 f_equal. now apply rgbToHex_sameColor.
Qed.

Lemma extractColors_one_color_witness :
  rgbaBuffer sampleBuffer ∧ (2 ≤ length (distinctOpaque sampleBuffer))%nat
  ∧ extractColors reverse sampleBuffer 1
    = Some [rgbToHex (meanColor (samplePixels sampleBuffer))]
  ∧ rgbToHex (meanColor (samplePixels sampleBuffer)) = "#3E3F40".
Proof.
  assert (H : (2 ≤ length (distinctOpaque sampleBuffer))%nat) by (vm_compute; lia).
  split; [exact sampleBuffer_rgba|]. split; [exact H|].
  split; [|vm_compute; reflexivity].
  exact (proj2 (proj2 (extractColors_one_color reverse reverse_Permutation
                         sampleBuffer sampleBuffer_rgba H))).
Defined.

(** ** The text on a swatch *)

Lemma parseInt16_twoHexDigits n :
  0 <= n <= 255 → parseInt16 (twoHexDigits n) = Some n.
Proof.
  intros Hn.
  apply (bool_decide_eq_true_1 (parseInt16 (twoHexDigits n) = Some n)).
  revert n Hn.
  apply (byte_forall (λ n, bool_decide (parseInt16 (twoHexDigits n) = Some n))).
  vm_compute. reflexivity.
Qed.

Lemma luminance_bright rr gg bb :
  Qltb (1 # 2) (luminance rr gg bb) = true
  ↔ 127500 < 299 * rr + 587 * gg + 114 * bb.
Proof.
  rewrite Qltb_lt, Zlt_Qlt, !inject_Z_plus, !inject_Z_mult. unfold luminance.
  set (x := inject_Z rr). set (y := inject_Z gg). set (z := inject_Z bb).
  change (inject_Z 127500) with 127500%Q. change (inject_Z 299) with 299%Q.
  change (inject_Z 587) with 587%Q. change (inject_Z 114) with 114%Q.
  assert (E : (((299 # 1000) * x + (587 # 1000) * y + (114 # 1000) * z) / 255
               == (299 * x + 587 * y + 114 * z) * (1 # 255000))%Q) by field.
  rewrite E. split; intros H; lra.
Qed.

Lemma getTextColor_hexOfBytes rr gg bb :
  0 <= rr <= 255 → 0 <= gg <= 255 → 0 <= bb <= 255 →
  getTextColor (hexOfBytes rr gg bb)
  = if Qltb (1 # 2) (luminance rr gg bb) then "#000000" else "#FFFFFF".
Proof.
  intros Hr Hg Hb.
  pose proof (parseInt16_twoHexDigits rr Hr) as Pr.
  pose proof (parseInt16_twoHexDigits gg Hg) as Pg.
  pose proof (parseInt16_twoHexDigits bb Hb) as Pb.
  unfold twoHexDigits in Pr, Pg, Pb.
  assert (E : hexOfBytes rr gg bb
              = String "#"
                  (String (upperHexDigit (rr / 16)) (String (upperHexDigit (rr mod 16))
                  (String (upperHexDigit (gg / 16)) (String (upperHexDigit (gg mod 16))
                  (String (upperHexDigit (bb / 16)) (String (upperHexDigit (bb mod 16))
                   EmptyString))))))) by reflexivity.
  rewrite E. unfold getTextColor.
  cbn -[parseInt16 luminance upperHexDigit Qltb Z.div Z.modulo].
  now rewrite Pr, Pg, Pb.
Qed.

(** X9.  On the hex string that [rgbToHex] makes of a colour with
    channels in [0,255], [getTextColor] reads the three rounded
    channels back and weighs them: black text when
    [299 R + 587 G + 114 B] is above 127500, white text when it is
    below. *)
Theorem getTextColor_rgbToHex (c : RGBColor) (Hc : colorInRange c) :
  let weight :=
    299 * Math_round (r c) + 587 * Math_round (g c) + 114 * Math_round (b c) in
  (127500 < weight → getTextColor (rgbToHex c) = "#000000")
  ∧ (weight < 127500 → getTextColor (rgbToHex c) = "#FFFFFF").
Proof.
  intros weight. rewrite (rgbToHex_hexOfBytes c Hc).
  destruct Hc as (Hr & Hg & Hb). apply Math_round_range in Hr, Hg, Hb.
  rewrite (getTextColor_hexOfBytes _ _ _ Hr Hg Hb).
  destruct (Qltb (1 # 2) (luminance _ _ _)) eqn:E.
  - apply luminance_bright in E. fold weight in E. split; [reflexivity|lia].
  - split; [|reflexivity]. intros Hw.
    apply luminance_bright in Hw. unfold weight in Hw. congruence.
Qed.

Lemma getTextColor_rgbToHex_witness :
  colorInRange (mkRGB 255 (401 # 2) 0)
  ∧ getTextColor (rgbToHex (mkRGB 255 (401 # 2) 0)) = "#000000".
Proof.
  assert (Hc : colorInRange (mkRGB 255 (401 # 2) 0)).
  { unfold colorInRange, inByteRange; simpl. repeat split; lra. }
  split; [exact Hc|].
  apply (proj1 (getTextColor_rgbToHex _ Hc)). vm_compute. reflexivity.
Defined.

(** ** The sampler on buffers put together or rearranged *)

Lemma dedupFrom_app l1 : ∀ seen l2,
  dedupFrom seen (l1 ++ l2) = dedupFrom (dedupFrom seen l1) l2.
Proof.
  induction l1 as [|x l1 IH]; intros seen l2; simpl; [reflexivity|].
  destruct (decide (x ∈ seen)); apply IH.
Qed.

Lemma dedupFrom_nil l : dedupFrom [] l = firstOccurrences l.
Proof.
  rewrite dedupFrom_firstOccurrences. simpl.
  induction (firstOccurrences l) as [|x l' IH]; [reflexivity|].
  rewrite filter_cons_True by apply not_elem_of_nil. now f_equal.
Qed.

Lemma firstOccurrences_app l1 l2 :
  firstOccurrences (l1 ++ l2)
  = firstOccurrences l1
    ++ filter (λ t, t ∉ firstOccurrences l1) (firstOccurrences l2).
Proof.
  rewrite <- (dedupFrom_nil (l1 ++ l2)), dedupFrom_app, dedupFrom_nil.
  apply dedupFrom_firstOccurrences.
Qed.

Lemma bufferPixels_app d1 d2 :
  (length d1 mod 4 = 0)%nat →
  bufferPixels (d1 ++ d2) = bufferPixels d1 ++ bufferPixels d2.
Proof.
  induction d1 as [l Hl|rr gg bb a rest IH] using rgba_ind; intros Hmod.
  - destruct l as [|? [|? [|? [|? ?]]]]; simpl in *; try reflexivity;
      try discriminate; lia.
  - cbn [app bufferPixels]. rewrite IH; [reflexivity|].
    change (length (rr :: gg :: bb :: a :: rest)) with (4 + length rest)%nat in Hmod.
    rewrite Nat.add_comm in Hmod.
    now rewrite <- (Nat.Div0.mod_add (length rest) 1 4).
Qed.

Lemma opaqueTriples_app d1 d2 :
  (length d1 mod 4 = 0)%nat →
  opaqueTriples (d1 ++ d2) = opaqueTriples d1 ++ opaqueTriples d2.
Proof.
  intros Hmod. unfold opaqueTriples.
  now rewrite (bufferPixels_app d1 d2 Hmod), filter_app, map_app.
Qed.

(** X10.  The samples of two buffers of RGBA bytes one after the other
    are the samples of the first, followed by those colours of the
    second that the first does not have, in the order the second has
    them. *)
Theorem samplePixels_app (data1 data2 : list Z)
    (Hwf1 : rgbaBuffer data1) (Hwf2 : rgbaBuffer data2) :
  samplePixels (data1 ++ data2)
  = samplePixels data1
    ++ map tripleColor
         (filter (λ t, t ∉ distinctOpaque data1) (distinctOpaque data2)).
Proof.
  destruct Hwf1 as [Hb1 Hm1], Hwf2 as [Hb2 _].
  rewrite (samplePixels_distinctOpaque (data1 ++ data2)) by now apply Forall_app.
  rewrite (samplePixels_distinctOpaque data1 Hb1).
  unfold distinctOpaque.
  now rewrite (opaqueTriples_app _ _ Hm1), firstOccurrences_app, map_app.
Qed.

Lemma samplePixels_app_witness :
  rgbaBuffer [1; 2; 3; 255;  4; 5; 6; 255]
  ∧ rgbaBuffer [4; 5; 6; 255;  7; 8; 9; 255;  1; 2; 3; 255]
  ∧ samplePixels ([1; 2; 3; 255;  4; 5; 6; 255]
                  ++ [4; 5; 6; 255;  7; 8; 9; 255;  1; 2; 3; 255])
    = [mkRGB 1 2 3; mkRGB 4 5 6; mkRGB 7 8 9].
Proof.
  assert (H1 : rgbaBuffer [1; 2; 3; 255;  4; 5; 6; 255]).
  { split; [|reflexivity]. repeat (constructor; [unfold isByte; lia|]). constructor. }
  assert (H2 : rgbaBuffer [4; 5; 6; 255;  7; 8; 9; 255;  1; 2; 3; 255]).
  { split; [|reflexivity]. repeat (constructor; [unfold isByte; lia|]). constructor. }
  split; [exact H1|]. split; [exact H2|].
  rewrite (samplePixels_app _ _ H1 H2). vm_compute. reflexivity.
Defined.

(** X11.  Two buffers of RGBA bytes with the same opaque colours, where
    and how often ever they come, have the same samples but for their
    order, and so equally many. *)
Theorem samplePixels_same_colors (data1 data2 : list Z)
    (Hwf1 : rgbaBuffer data1) (Hwf2 : rgbaBuffer data2)
    (Hsame : ∀ t, (t, 255) ∈ bufferPixels data1 ↔ (t, 255) ∈ bufferPixels data2) :
  samplePixels data1 ≡ₚ samplePixels data2
  ∧ length (samplePixels data1) = length (samplePixels data2).
Proof.
  destruct Hwf1 as [Hb1 _], Hwf2 as [Hb2 _].
  assert (Hp : samplePixels data1 ≡ₚ samplePixels data2).
  { rewrite (samplePixels_distinctOpaque data1 Hb1),
      (samplePixels_distinctOpaque data2 Hb2).
    apply Permutation_map.
    apply NoDup_Permutation; try apply NoDup_firstOccurrences.
    intros t. unfold distinctOpaque.
    now rewrite !elem_of_firstOccurrences, !elem_of_opaqueTriples. }
  split; [exact Hp|]. now apply Permutation_length.
Qed.

Lemma samplePixels_same_colors_witness :
  let data1 := [1; 2; 3; 255;  4; 5; 6; 255;  1; 2; 3; 255] in
  let data2 := [4; 5; 6; 255;  0; 0; 0; 7;  1; 2; 3; 255] in
  rgbaBuffer data1 ∧ rgbaBuffer data2
  ∧ samplePixels data1 ≡ₚ samplePixels data2.
Proof.
  intros data1 data2.
  assert (H1 : rgbaBuffer data1).
  { split; [|reflexivity]. repeat (constructor; [unfold isByte; lia|]). constructor. }
  assert (H2 : rgbaBuffer data2).
  { split; [|reflexivity]. repeat (constructor; [unfold isByte; lia|]). constructor. }
  split; [exact H1|]. split; [exact H2|].
  apply (samplePixels_same_colors data1 data2 H1 H2).
  intros [[rr gg] bb]. unfold data1, data2. cbn [bufferPixels].
  rewrite !elem_of_cons, !elem_of_nil.
  split; intros H; repeat destruct H as [H|H];
    try discriminate H; try contradiction; injection H as -> -> ->; tauto.
Defined.

(** ** The checks on an upload *)

(** X12.  A file reaches [onImageUpload] exactly when it is the first
    of the files, its type is one of the five accepted ones and it has
    no more than 5 * 1024 * 1024 bytes; a first file of another type
    gets the message on the format, whatever its size.  A drop or a
    change of the input does the same when nothing is being processed,
    and nothing when something is. *)
Theorem upload_checks (files : list ImageUploader.File)
    (file : ImageUploader.File) :
  let accepted f :=
    ImageUploader.type f ∈ ImageUploader.ACCEPTED_FORMATS
    ∧ ImageUploader.size f <= 5242880 in
  (ImageUploader.handleFileSelect (Some files) = ImageUploader.Upload file
   ↔ head files = Some file ∧ accepted file)
  ∧ (head files = Some file →
     ImageUploader.type file ∉ ImageUploader.ACCEPTED_FORMATS →
     ImageUploader.handleFileSelect (Some files)
     = ImageUploader.Error ImageUploader.UnsupportedFormat)
  ∧ (head files = Some file →
     ImageUploader.type file ∈ ImageUploader.ACCEPTED_FORMATS →
     5242880 < ImageUploader.size file →
     ImageUploader.handleFileSelect (Some files)
     = ImageUploader.Error ImageUploader.FileTooLarge)
  ∧ ImageUploader.handleFileSelect None = ImageUploader.Nothing
  ∧ ImageUploader.handleFileSelect (Some []) = ImageUploader.Nothing
  ∧ (∀ isProcessing,
       snd (ImageUploader.handleDrop isProcessing files)
       = (if isProcessing then ImageUploader.Nothing
          else ImageUploader.handleFileSelect (Some files))
       ∧ ImageUploader.handleInputChange isProcessing (Some files)
         = (if isProcessing then ImageUploader.Nothing
            else ImageUploader.handleFileSelect (Some files))).
Proof.
  intros accepted. unfold accepted.
  change (5 * 1024 * 1024) with 5242880 in *.
  assert (Hsel : ∀ f rest,
            ImageUploader.handleFileSelect (Some (f :: rest))
            = if negb (bool_decide (ImageUploader.type f
                                    ∈ ImageUploader.ACCEPTED_FORMATS))
              then ImageUploader.Error ImageUploader.UnsupportedFormat
              else if 5242880 <? ImageUploader.size f
                   then ImageUploader.Error ImageUploader.FileTooLarge
                   else ImageUploader.Upload f) by reflexivity.
  split; [|split; [|split]].
  - destruct files as [|f rest]; [split; [discriminate|intros [[=] _]]|].
    rewrite Hsel. simpl. case_bool_decide as Hty; simpl.
    + destruct (5242880 <? ImageUploader.size f) eqn:Hsz.
      * apply Z.ltb_lt in Hsz. split; [discriminate|].
        intros [[= ->] [_ Hle]]. lia.
      * apply Z.ltb_ge in Hsz. split.
        -- intros [= ->]. now repeat split.
        -- now intros [[= ->] _].
    + split; [discriminate|]. intros [[= ->] [Hin _]]. contradiction.
  - destruct files as [|f rest]; [discriminate|]. intros [= ->] Hty.
    rewrite Hsel. now rewrite bool_decide_eq_false_2.
  - destruct files as [|f rest]; [discriminate|]. intros [= ->] Hty Hsz.
    rewrite Hsel, bool_decide_eq_true_2 by assumption. simpl.
    apply Z.ltb_lt in Hsz. now rewrite Hsz.
  - split; [reflexivity|]. split; [reflexivity|].
    intros isProcessing. split; reflexivity.
Qed.

(** ** No more samples than pixels *)

Lemma length_bufferPixels data :
  length (bufferPixels data) = (length data / 4)%nat.
Proof.
  induction data as [l Hl|rr gg bb a rest IH] using rgba_ind.
  - rewrite Nat.div_small by assumption.
    destruct l as [|? [|? [|? [|? ?]]]]; simpl in *; try reflexivity; lia.
  - cbn [bufferPixels length]. rewrite IH.
    assert (E : ((length rest + 1 * 4) / 4 = length rest / 4 + 1)%nat)
      by (apply Nat.div_add; lia).
    replace (S (S (S (S (length rest))))) with (length rest + 1 * 4)%nat by lia.
    rewrite E. lia.
Qed.

Lemma length_firstOccurrences l : (length (firstOccurrences l) ≤ length l)%nat.
Proof.
  induction l as [|x l IH]; simpl; [lia|].
  pose proof (length_filter (λ y, y ≠ x) (firstOccurrences l)). lia.
Qed.

(** X13.  The sampler gives at most one sample for each pixel of the
    buffer, a pixel being four bytes. *)
Theorem samplePixels_count (data : list Z) (Hwf : rgbaBuffer data) :
  (length (samplePixels data) ≤ length data / 4)%nat.
Proof.
  destruct Hwf as [Hbytes _].
  rewrite (samplePixels_distinctOpaque data Hbytes), length_map.
  unfold distinctOpaque, opaqueTriples.
  etrans; [apply length_firstOccurrences|].
  rewrite length_map, <- length_bufferPixels. apply length_filter.
Qed.

Lemma samplePixels_count_witness :
  rgbaBuffer sampleBuffer
  ∧ (length (samplePixels sampleBuffer) ≤ length sampleBuffer / 4)%nat.
Proof.
  split; [exact sampleBuffer_rgba|].
  exact (samplePixels_count sampleBuffer sampleBuffer_rgba).
Defined.
